(** * Watchtower dashboard: the alert poller and its HTTP handlers

    A shallow embedding of [src/backend/python/dashboard.py]: the background
    loop [check_alerts], which fetches the latest metrics, rebuilds the global
    list [active_alerts] and contains every exception of a cycle, and the
    handlers [api_latest], [api_alerts] and [api_alerts_config].

    Python values are the JSON values the program receives; the global
    variables of the module are the fields of a [world]; the network, the
    wall clock and the requests served by other threads are oracles of an
    [env]. *)

From Stdlib Require Import ZArith List String Ascii Bool Lia SpecFloat.
Import ListNotations.

Local Open Scope string_scope.
Local Open Scope list_scope.
Local Open Scope Z_scope.

Set Warnings "-register-all".

(** ** Python values *)

(** What [json.loads] builds: [None], [bool], [int], [float], [str], [list]
    and [dict] with string keys.  A [dict] is kept as an association list in
    insertion order, which is the order [items()] iterates in. *)
Inductive pyval : Type :=
| PNone
| PBool (b : bool)
| PInt (z : Z)
| PFloat (f : spec_float)
| PStr (s : string)
| PList (l : list pyval)
| PDict (d : list (string * pyval)).

Definition dict : Type := list (string * pyval).

(** The binary64 value nearest to [m * 2^e]. *)
Definition float64 (m e : Z) : spec_float :=
  binary_normalize 53 1024 m e false.

Module Dict.

(** [key in d] and [d[key]]: the first binding of [key]. *)
Fixpoint get {A : Type} (d : list (string * A)) (key : string) : option A :=
  match d with
  | [] => None
  | (k, v) :: rest => if String.eqb k key then Some v else get rest key
  end.

(** [d[key] = v]: an existing key keeps its position, a new one goes last. *)
Fixpoint set {A : Type} (d : list (string * A)) (key : string) (v : A)
  : list (string * A) :=
  match d with
  | [] => [(key, v)]
  | (k, v0) :: rest =>
      if String.eqb k key then (k, v) :: rest else (k, v0) :: set rest key v
  end.

(** [d.update(other)]: the pairs of [other] are stored one by one. *)
Definition update {A : Type} (d other : list (string * A))
  : list (string * A) :=
  fold_left (fun acc kv => set acc (fst kv) (snd kv)) other d.

Definition keys {A : Type} (d : list (string * A)) : list string :=
  map fst d.

(** No key occurs twice: true of every Python [dict]. *)
Definition wf {A : Type} (d : list (string * A)) : Prop := NoDup (keys d).

End Dict.

(** ** Comparison

    Python compares [bool], [int] and [float] by their exact numerical
    value, whatever the mix.  [number] is that value. *)
Inductive number : Type :=
| NaN
| NegInf
| PosInf
| Fin (m e : Z).   (* m * 2^e *)

Definition float_number (f : spec_float) : number :=
  match f with
  | S754_zero _ => Fin 0 0
  | S754_infinity true => NegInf
  | S754_infinity false => PosInf
  | S754_nan => NaN
  | S754_finite s m e => Fin (if s then Z.neg m else Z.pos m) e
  end.

Definition as_number (v : pyval) : option number :=
  match v with
  | PBool b => Some (Fin (Z.b2z b) 0)
  | PInt z => Some (Fin z 0)
  | PFloat f => Some (float_number f)
  | _ => None
  end.

(** [m * 2^e] scaled to the exponent [e0 <= e]. *)
Definition scaled (m e e0 : Z) : Z := m * 2 ^ (e - e0).

Definition number_gt (x y : number) : bool :=
  match x, y with
  | NaN, _ | _, NaN => false
  | PosInf, PosInf => false
  | PosInf, _ => true
  | _, PosInf => false
  | NegInf, _ => false
  | _, NegInf => true
  | Fin m1 e1, Fin m2 e2 =>
      let e0 := Z.min e1 e2 in scaled m2 e2 e0 <? scaled m1 e1 e0
  end.

(** Equality of two items of a container, [PyObject_RichCompareBool] with
    [Py_EQ]: the same object, or equal.  The standard decoder hands out one
    shared object for the token [NaN], so two NaN items are the same
    object. *)
Definition number_same (x y : number) : bool :=
  match x, y with
  | NaN, NaN => true
  | NegInf, NegInf => true
  | PosInf, PosInf => true
  | Fin m1 e1, Fin m2 e2 =>
      let e0 := Z.min e1 e2 in scaled m1 e1 e0 =? scaled m2 e2 e0
  | _, _ => false
  end.

Fixpoint item_eq (a b : pyval) {struct a} : bool :=
  match a, b with
  | PNone, PNone => true
  | PStr s, PStr t => String.eqb s t
  | PList l1, PList l2 =>
      (fix all2 (l1 l2 : list pyval) {struct l1} : bool :=
         match l1, l2 with
         | [], [] => true
         | x :: xs, y :: ys => item_eq x y && all2 xs ys
         | _, _ => false
         end) l1 l2
  | PDict d1, PDict d2 =>
      Nat.eqb (List.length d1) (List.length d2) &&
      (fix all (d : list (string * pyval)) {struct d} : bool :=
         match d with
         | [] => true
         | (k, v) :: rest =>
             match Dict.get d2 k with
             | Some v' => item_eq v v'
             | None => false
             end && all rest
         end) d1
  | _, _ =>
      match as_number a, as_number b with
      | Some x, Some y => number_same x y
      | _, _ => false
      end
  end.

(** [str > str]: by code points, which is the byte order of UTF-8. *)
Definition str_gt (s t : string) : bool := String.ltb t s.

(** [a > b].  [None] stands for the [TypeError] Python raises when the two
    types are not ordered against each other. *)
Fixpoint py_gt (a b : pyval) {struct a} : option bool :=
  match a, b with
  | PStr s, PStr t => Some (str_gt s t)
  | PList l1, PList l2 =>
      (fix lex (l1 l2 : list pyval) {struct l1} : option bool :=
         match l1, l2 with
         | [], _ => Some false
         | _ :: _, [] => Some true
         | x :: xs, y :: ys => if item_eq x y then lex xs ys else py_gt x y
         end) l1 l2
  | _, _ =>
      match as_number a, as_number b with
      | Some x, Some y => Some (number_gt x y)
      | _, _ => None
      end
  end.

(** ** The state of the process and its surroundings *)

(** One entry of [active_alerts]: the five keys of the dict the loop appends. *)
Record alert : Type := mkAlert {
  hostname : string;
  type : string;
  value : pyval;
  threshold : pyval;
  timestamp : string
}.

(** The exceptions a cycle can raise. *)
Inductive exn : Type :=
| RequestException (msg : string)  (* requests.get: timeout, connection error *)
| JSONDecodeError (msg : string)   (* response.json() on a body that is not JSON *)
| AttributeError                   (* .items() on a value that is not a dict *)
| KeyError (key : string)
| TypeError.

(** What a request to the metrics server comes back with. *)
Record response : Type := mkResponse {
  status_code : Z;
  json : string + pyval   (* response.json(): the decoder's error, or the value *)
}.

Inductive fetch : Type :=
| Refused (msg : string)   (* requests.get raises *)
| Answered (r : response).

(** The module's globals, and what the process has done so far. *)
Record world : Type := mkWorld {
  ALERT_THRESHOLDS : dict;
  active_alerts : list alert;
  sent : list string;                       (* URLs passed to requests.get *)
  clock_reads : nat;                        (* calls of datetime.now() *)
  observed : list (string * option pyval);  (* subscripts of ALERT_THRESHOLDS by the loop *)
  stdout : list exn;                        (* "Error checking alerts: e" lines *)
  naps : nat                                (* calls of time.sleep(10) *)
}.

(** The surroundings: the answer to the n-th request, the n-th reading of
    the clock, and the bodies of the POSTs to /api/alerts/config that request
    threads serve just before the loop's n-th subscript of ALERT_THRESHOLDS
    (the handler does not take [alerts_lock]). *)
Record env : Type := mkEnv {
  net : nat -> fetch;
  now : nat -> string;
  foreign : nat -> list dict
}.

Definition with_thresholds (T : dict) (w : world) : world :=
  mkWorld T (active_alerts w) (sent w) (clock_reads w) (observed w) (stdout w) (naps w).
Definition with_alerts (l : list alert) (w : world) : world :=
  mkWorld (ALERT_THRESHOLDS w) l (sent w) (clock_reads w) (observed w) (stdout w) (naps w).
Definition with_sent (l : list string) (w : world) : world :=
  mkWorld (ALERT_THRESHOLDS w) (active_alerts w) l (clock_reads w) (observed w) (stdout w) (naps w).
Definition with_clock_reads (n : nat) (w : world) : world :=
  mkWorld (ALERT_THRESHOLDS w) (active_alerts w) (sent w) n (observed w) (stdout w) (naps w).
Definition with_observed (l : list (string * option pyval)) (w : world) : world :=
  mkWorld (ALERT_THRESHOLDS w) (active_alerts w) (sent w) (clock_reads w) l (stdout w) (naps w).
Definition with_stdout (l : list exn) (w : world) : world :=
  mkWorld (ALERT_THRESHOLDS w) (active_alerts w) (sent w) (clock_reads w) (observed w) l (naps w).
Definition with_naps (n : nat) (w : world) : world :=
  mkWorld (ALERT_THRESHOLDS w) (active_alerts w) (sent w) (clock_reads w) (observed w) (stdout w) n.

(** ** Statements that may raise *)

Inductive result (A : Type) : Type :=
| Ok (a : A)
| Raise (e : exn).
Arguments Ok {A} a.
Arguments Raise {A} e.

Definition M (A : Type) : Type := world -> world * result A.

Definition ret {A : Type} (a : A) : M A := fun w => (w, Ok a).
Definition raise {A : Type} (e : exn) : M A := fun w => (w, Raise e).
Definition bind {A B : Type} (c : M A) (k : A -> M B) : M B :=
  fun w =>
    match c w with
    | (w', Ok a) => k a w'
    | (w', Raise e) => (w', Raise e)
    end.

Declare Scope py_scope.
Delimit Scope py_scope with py.
Notation "x <- c ;; k" := (bind c (fun x => k))
  (at level 61, c at next level, right associativity) : py_scope.
Notation "c ;; k" := (bind c (fun _ => k))
  (at level 61, right associativity) : py_scope.
Local Open Scope py_scope.

(** [for x in l: body(x)] *)
Fixpoint for_each {A : Type} (l : list A) (body : A -> M unit) : M unit :=
  match l with
  | [] => ret tt
  | x :: rest => body x ;; for_each rest body
  end.

(** ** Configuration of the thresholds *)

Record http_response : Type := mkHttp {
  status : Z;
  body : pyval
}.

(** [jsonify(v)]: status 200. *)
Definition jsonify (v : pyval) : http_response := mkHttp 200 v.

Inductive http_method : Type := GET | POST.

(** /api/alerts/config; [request_json] is the object in the body of a POST. *)
Definition api_alerts_config (method : http_method) (request_json : dict)
  (w : world) : world * http_response :=
  match method with
  | POST =>
      let new_thresholds := request_json in
      let w' := with_thresholds (Dict.update (ALERT_THRESHOLDS w) new_thresholds) w in
      (w', jsonify (PDict [("status", PStr "ok");
                           ("thresholds", PDict (ALERT_THRESHOLDS w'))]))
  | GET => (w, jsonify (PDict (ALERT_THRESHOLDS w)))
  end.

(** The POSTs with the bodies [posts], served one after the other. *)
Definition serve_posts (posts : list dict) (w : world) : world :=
  fold_left (fun w0 request_json => fst (api_alerts_config POST request_json w0))
            posts w.

(** ** Primitive statements *)

Definition GO_SERVER_URL : string := "http://localhost:8080".

(** [requests.get(url, timeout=5)] *)
Definition requests_get (E : env) (url : string) : M response :=
  fun w =>
    let w' := with_sent (sent w ++ [url]) w in
    match net E (List.length (sent w)) with
    | Refused msg => (w', Raise (RequestException msg))
    | Answered r => (w', Ok r)
    end.

(** [response.json()] *)
Definition response_json (r : response) : M pyval :=
  match json r with
  | inl msg => raise (JSONDecodeError msg)
  | inr v => ret v
  end.

(** [v[key]] for a string [key]: only a dict can be subscripted by a string. *)
Definition getitem (v : pyval) (key : string) : M pyval :=
  match v with
  | PDict d =>
      match Dict.get d key with
      | Some x => ret x
      | None => raise (KeyError key)
      end
  | _ => raise TypeError
  end.

(** [v.items()] *)
Definition items (v : pyval) : M (list (string * pyval)) :=
  match v with
  | PDict d => ret d
  | _ => raise AttributeError
  end.

(** [a > b] as the condition of an [if]. *)
Definition greater (a b : pyval) : M bool :=
  match py_gt a b with
  | Some c => ret c
  | None => raise TypeError
  end.

(** [ALERT_THRESHOLDS[key]] in the loop: the POSTs served since the previous
    subscript have been merged by then. *)
Definition read_threshold (E : env) (key : string) : M pyval :=
  fun w =>
    let w1 := serve_posts (foreign E (List.length (observed w))) w in
    let T := ALERT_THRESHOLDS w1 in
    let w' := with_observed (observed w1 ++ [(key, Dict.get T key)]) w1 in
    match Dict.get T key with
    | Some t => (w', Ok t)
    | None => (w', Raise (KeyError key))
    end.

(** [datetime.now().isoformat()] *)
Definition datetime_now (E : env) : M string :=
  fun w => (with_clock_reads (S (clock_reads w)) w, Ok (now E (clock_reads w))).

(** [active_alerts.clear()] and [active_alerts.append(a)] *)
Definition clear : M unit := fun w => (with_alerts [] w, Ok tt).
Definition append (a : alert) : M unit :=
  fun w => (with_alerts (active_alerts w ++ [a]) w, Ok tt).

(** ** [check_alerts] *)

Inductive kind : Type := cpu | memory | disk.

Definition usage_field (k : kind) : string :=
  match k with cpu => "cpu_usage" | memory => "memory_usage" | disk => "disk_usage" end.
Definition threshold_key (k : kind) : string :=
  match k with cpu => "cpu" | memory => "memory" | disk => "disk" end.
Definition type_label (k : kind) : string :=
  match k with cpu => "CPU" | memory => "Memory" | disk => "Disk" end.

(** One of the three [if] blocks of the loop body, for the metric [k]. *)
Definition check_metric (E : env) (host : string) (metrics : pyval) (k : kind)
  : M unit :=
  usage <- getitem metrics (usage_field k) ;;
  limit <- read_threshold E (threshold_key k) ;;
  exceeded <- greater usage limit ;;
  if (exceeded : bool) then
    v <- getitem metrics (usage_field k) ;;
    t <- read_threshold E (threshold_key k) ;;
    stamp <- datetime_now E ;;
    append (mkAlert host (type_label k) v t stamp)
  else ret tt.

(** The body of [for hostname, metrics in latest_metrics.items()]. *)
Definition check_host (E : env) (hm : string * pyval) : M unit :=
  check_metric E (fst hm) (snd hm) cpu ;;
  check_metric E (fst hm) (snd hm) memory ;;
  check_metric E (fst hm) (snd hm) disk.

(** The block under [with alerts_lock]. *)
Definition check_alerts_locked (E : env) (latest_metrics : pyval) : M unit :=
  clear ;;
  hosts <- items latest_metrics ;;
  for_each hosts (check_host E).

(** The body of the [try]. *)
Definition check_alerts_try (E : env) : M unit :=
  resp <- requests_get E (String.append GO_SERVER_URL "/latest") ;;
  if status_code resp =? 200 then
    latest_metrics <- response_json resp ;;
    check_alerts_locked E latest_metrics
  else ret tt.

(** One turn of [while True]: the [try], its [except Exception], the sleep. *)
Definition check_alerts_iter (E : env) (w : world) : world :=
  let w' :=
    match check_alerts_try E w with
    | (w1, Ok _) => w1
    | (w1, Raise e) => with_stdout (stdout w1 ++ [e]) w1
    end in
  with_naps (S (naps w')) w'.

(** The first [n] turns of the loop. *)
Fixpoint check_alerts (E : env) (n : nat) (w : world) : world :=
  match n with
  | O => w
  | S n' => check_alerts E n' (check_alerts_iter E w)
  end.

(** ** The other HTTP handlers *)

(** [str(e)]: the message of the exceptions a fetch raises.  The exceptions
    of the loop body reach no handler that formats them; they are rendered
    by their name or key. *)
Definition exn_str (e : exn) : string :=
  match e with
  | RequestException msg => msg
  | JSONDecodeError msg => msg
  | AttributeError => "AttributeError"
  | KeyError key => key
  | TypeError => "TypeError"
  end.

(** GET /api/latest *)
Definition api_latest (E : env) (w : world) : world * http_response :=
  match (resp <- requests_get E (String.append GO_SERVER_URL "/latest") ;;
         response_json resp) w with
  | (w', Ok v) => (w', jsonify v)
  | (w', Raise e) => (w', mkHttp 500 (PDict [("error", PStr (exn_str e))]))
  end.

Definition alert_json (a : alert) : pyval :=
  PDict [("hostname", PStr (hostname a)); ("type", PStr (type a));
         ("value", value a); ("threshold", threshold a);
         ("timestamp", PStr (timestamp a))].

(** GET /api/alerts *)
Definition api_alerts (w : world) : world * http_response :=
  (w, jsonify (PList (map alert_json (active_alerts w)))).

(** [request.args.get(key, default)]: the first value the query string gives
    [key], or [default]. *)
Definition args_get (args : list (string * string)) (key default : string)
  : string :=
  match Dict.get args key with
  | Some v => v
  | None => default
  end.

(** The URL [api_query] builds from the query string [args]. *)
Definition query_url (args : list (string * string)) : string :=
  let hostname := args_get args "hostname" "" in
  let hours := args_get args "hours" "24" in
  let url := String.append GO_SERVER_URL (String.append "/query?hours=" hours) in
  if String.eqb hostname "" then url
  else String.append url (String.append "&hostname=" hostname).

(** GET /api/query *)
Definition api_query (args : list (string * string)) (E : env) (w : world)
  : world * http_response :=
  match (resp <- requests_get E (query_url args) ;; response_json resp) w with
  | (w', Ok v) => (w', jsonify v)
  | (w', Raise e) => (w', mkHttp 500 (PDict [("error", PStr (exn_str e))]))
  end.

(** The globals when the module has just been loaded. *)
Definition initial_world : world :=
  mkWorld [("cpu", PFloat (float64 80 0));
           ("memory", PFloat (float64 85 0));
           ("disk", PFloat (float64 90 0))]
          [] [] 0 [] [] 0.

(** ** The page: the auto-refresh switch *)

Module Page.

(** The two variables of the script, the text of the [auto-status] span, and
    the timers of the window: the handles [setInterval] has given and
    [clearInterval] has not taken back. *)
Record page : Type := mkPage {
  autoRefresh : bool;
  refreshInterval : option nat;   (* undefined until the first setInterval *)
  auto_status : string;
  intervals : list nat;
  next_handle : nat
}.

(** [setInterval(refreshData, 10000)]: a timer under a handle not given
    before. *)
Definition setInterval (p : page) : page * nat :=
  (mkPage (autoRefresh p) (refreshInterval p) (auto_status p)
          (intervals p ++ [next_handle p]) (S (next_handle p)),
   next_handle p).

(** [clearInterval(h)]: the timer of handle [h] is gone; nothing happens
    for [undefined]. *)
Definition clearInterval (h : option nat) (p : page) : page :=
  match h with
  | None => p
  | Some n =>
      mkPage (autoRefresh p) (refreshInterval p) (auto_status p)
             (filter (fun m => negb (Nat.eqb m n)) (intervals p)) (next_handle p)
  end.

Definition startAutoRefresh (p : page) : page :=
  let (p', h) := setInterval p in
  mkPage (autoRefresh p') (Some h) (auto_status p') (intervals p') (next_handle p').

Definition toggleAutoRefresh (p : page) : page :=
  let p1 := mkPage (negb (autoRefresh p)) (refreshInterval p) (auto_status p)
                   (intervals p) (next_handle p) in
  let p2 := mkPage (autoRefresh p1) (refreshInterval p1)
                   (if autoRefresh p1 then "ON" else "OFF")
                   (intervals p1) (next_handle p1) in
  if autoRefresh p2 then startAutoRefresh p2
  else clearInterval (refreshInterval p2) p2.

(** The page once its script has run: [autoRefresh = true], the span reads
    ON, and [startAutoRefresh()] has been called.  ([refreshData] touches
    none of these.) *)
Definition loaded : page := startAutoRefresh (mkPage true None "ON" [] 1).

(** [n] clicks on the Auto-Refresh button. *)
Fixpoint clicks (n : nat) (p : page) : page :=
  match n with
  | O => p
  | S n' => clicks n' (toggleAutoRefresh p)
  end.

(** Switched on with the one timer [refreshInterval] names, or switched off
    with none; the span says which. *)
Definition consistent (p : page) : Prop :=
  (if autoRefresh p
   then exists h, refreshInterval p = Some h /\ intervals p = [h]
   else intervals p = []) /\
  auto_status p = (if autoRefresh p then "ON" else "OFF").

End Page.

(** * The vocabulary of the properties *)

(** No request thread touches the configuration. *)
Definition quiet (E : env) : Prop := forall n, foreign E n = [].

(** What one [if] block decides for the metrics of a host, as a function of
    the thresholds [T]: an exception, nothing to report, or the observed
    value with the threshold it exceeds. *)
Definition verdict (T : dict) (metrics : pyval) (k : kind)
  : result (option (pyval * pyval)) :=
  match metrics with
  | PDict d =>
      match Dict.get d (usage_field k) with
      | None => Raise (KeyError (usage_field k))
      | Some v =>
          match Dict.get T (threshold_key k) with
          | None => Raise (KeyError (threshold_key k))
          | Some t =>
              match py_gt v t with
              | None => Raise TypeError
              | Some true => Ok (Some (v, t))
              | Some false => Ok None
              end
          end
      end
  | _ => Raise TypeError
  end.

(** The [if] blocks the loop runs through, in order: three per host. *)
Definition slot : Type := string * pyval * kind.

(** The blocks of the hosts [hosts], as the loop meets them. *)
Definition slots (hosts : list (string * pyval)) : list slot :=
  flat_map (fun hm => [(fst hm, snd hm, cpu); (fst hm, snd hm, memory);
                       (fst hm, snd hm, disk)]) hosts.

(** An alert before it is stamped. *)
Definition finding : Type := string * kind * pyval * pyval.

(** The findings of the blocks [sl] up to the first that raises. *)
Fixpoint sweep (T : dict) (sl : list slot) : list finding * result unit :=
  match sl with
  | [] => ([], Ok tt)
  | (h, m, k) :: rest =>
      match verdict T m k with
      | Raise e => ([], Raise e)
      | Ok None => sweep T rest
      | Ok (Some (v, t)) =>
          let (found, r) := sweep T rest in ((h, k, v, t) :: found, r)
      end
  end.

(** The alerts of the findings [l], the first stamped with reading [n]. *)
Fixpoint stamped (clock : nat -> string) (n : nat) (l : list finding)
  : list alert :=
  match l with
  | [] => []
  | (h, k, v, t) :: rest =>
      mkAlert h (type_label k) v t (clock n) :: stamped clock (S n) rest
  end.

(** The block [s] of the loop. *)
Definition check_slot (E : env) (s : slot) : M unit :=
  let '(h, m, k) := s in check_metric E h m k.

(** [w'] is [w] with [emitted] appended to the alerts, as many readings of
    the clock, and [reads] more subscripts of the thresholds. *)
Record extends (w w' : world) (emitted : list alert)
               (reads : list (string * option pyval)) : Prop := mkExtends {
  ext_thresholds : ALERT_THRESHOLDS w' = ALERT_THRESHOLDS w;
  ext_alerts : active_alerts w' = active_alerts w ++ emitted;
  ext_sent : sent w' = sent w;
  ext_clock : clock_reads w' = (clock_reads w + List.length emitted)%nat;
  ext_observed : observed w' = observed w ++ reads;
  ext_stdout : stdout w' = stdout w;
  ext_naps : naps w' = naps w
}.

(** Every subscript in [reads] saw the entry of [T]. *)
Definition read_from (T : dict) (reads : list (string * option pyval)) : Prop :=
  Forall (fun kr => snd kr = Dict.get T (fst kr)) reads.

(** The block [s] finds its reading over the threshold. *)
Definition exceeds (T : dict) (s : slot) : bool :=
  match verdict T (snd (fst s)) (snd s) with
  | Ok (Some _) => true
  | _ => false
  end.

(** The host and the type of a finding, of a block and of an alert. *)
Definition finding_key (f : finding) : string * string :=
  let '(h, k, _, _) := f in (h, type_label k).
Definition slot_key (s : slot) : string * string :=
  let '(h, _, k) := s in (h, type_label k).
Definition alert_key (a : alert) : string * string := (hostname a, type a).

(** [l1] is [l2] with some of its elements left out, the order kept. *)
Inductive subseq {A : Type} : list A -> list A -> Prop :=
| subseq_nil : subseq [] []
| subseq_skip (x : A) (l1 l2 : list A) : subseq l1 l2 -> subseq l1 (x :: l2)
| subseq_keep (x : A) (l1 l2 : list A) : subseq l1 l2 -> subseq (x :: l1) (x :: l2).

(** An alert without its timestamp. *)
Definition untimed (a : alert) : string * string * pyval * pyval :=
  (hostname a, type a, value a, threshold a).
Definition finding_untimed (f : finding) : string * string * pyval * pyval :=
  let '(h, k, v, t) := f in (h, type_label k, v, t).

(** [v] is a [bool], an [int] or a [float]. *)
Definition numeric (v : pyval) : Prop := as_number v <> None.

(** Neither the requests sent, nor the output, nor the sleeps. *)
Record aside (w w' : world) : Prop := mkAside {
  aside_sent : sent w' = sent w;
  aside_stdout : stdout w' = stdout w;
  aside_naps : naps w' = naps w
}.

(** The fetch of a turn fails: the request raises, the status is not 200,
    or the body is not JSON. *)
Definition fetch_fails (f : fetch) : Prop :=
  match f with
  | Refused _ => True
  | Answered r => status_code r <> 200 \/ exists msg, json r = inl msg
  end.

(** The URL of the latest metrics. *)
Definition latest_url : string := String.append GO_SERVER_URL "/latest".

(** Each of the three thresholds is there and is a number. *)
Definition numeric_thresholds (T : dict) : Prop :=
  forall k, exists t, Dict.get T (threshold_key k) = Some t /\ numeric t.

(** Every host has a number for each of its three readings. *)
Definition numeric_metrics (hosts : dict) : Prop :=
  forall h m, In (h, m) hosts ->
    exists d, m = PDict d /\
              forall k, exists v, Dict.get d (usage_field k) = Some v /\ numeric v.

(** What the handler makes of the answer to its request. *)
Definition relayed (f : fetch) : http_response :=
  match f with
  | Refused msg => mkHttp 500 (PDict [("error", PStr msg)])
  | Answered r =>
      match json r with
      | inl msg => mkHttp 500 (PDict [("error", PStr msg)])
      | inr v => mkHttp 200 v
      end
  end.

(** The dict has a value for "cpu", "memory" and "disk". *)
Definition has_thresholds (T : dict) : Prop :=
  forall k : kind, Dict.get T (threshold_key k) <> None.

(** The exception is no [KeyError] for one of the three thresholds. *)
Definition not_for_threshold (e : exn) : Prop :=
  forall k : kind, e <> KeyError (threshold_key k).

(** The thresholds are defined and every subscript so far found its key. *)
Record settled (w : world) : Prop := mkSettled {
  settled_thresholds : has_thresholds (ALERT_THRESHOLDS w);
  settled_reads : Forall (fun kr => snd kr <> None) (observed w)
}.

(** ** The inputs of the examples *)

(** An alert left by an earlier cycle. *)
Definition stale : alert :=
  mkAlert "host0" "CPU" (PInt 99) (PFloat (float64 80 0)) "2024-01-01T00:00:00".

(** The process with its default thresholds and [stale] listed. *)
Definition stale_world : world := with_alerts [stale] initial_world.

(** The server answers 200 with [body]; nobody posts. *)
Definition answering (body : pyval) : env :=
  mkEnv (fun _ => Answered (mkResponse 200 (inr body)))
        (fun _ => "2024-01-01T00:00:10")
        (fun _ => []).

(** A host whose reading lacks [memory_usage]. *)
Definition truncated_metrics : pyval :=
  PDict [("host1", PDict [("cpu_usage", PInt 95)])].

(** The snapshot of the scenario: host1 with 92.5 % CPU, 50 % memory and
    95 % disk. *)
Definition scenario_hosts : dict :=
  [("host1", PDict [("hostname", PStr "host1");
                    ("cpu_usage", PFloat (float64 185 (-1)));
                    ("memory_usage", PInt 50);
                    ("disk_usage", PInt 95);
                    ("timestamp", PInt 1700000000)])].

(** Two hosts, the one the server names first not first in the alphabet. *)
Definition two_hosts : dict :=
  [("web2", PDict [("cpu_usage", PInt 99); ("memory_usage", PInt 99);
                   ("disk_usage", PInt 99)]);
   ("web1", PDict [("cpu_usage", PInt 10); ("memory_usage", PInt 99);
                   ("disk_usage", PInt 10)])].

(** The server answers with the scenario snapshot and the clock reads
    [stamp], whenever it is read. *)
Definition at_instant (stamp : string) : env :=
  mkEnv (fun _ => Answered (mkResponse 200 (inr (PDict scenario_hosts))))
        (fun _ => stamp) (fun _ => []).

(** The server answers the first request with the scenario snapshot and the
    later ones with [two_hosts]. *)
Definition moving : env :=
  mkEnv (fun n => match n with
                  | O => Answered (mkResponse 200 (inr (PDict scenario_hosts)))
                  | S _ => Answered (mkResponse 200 (inr (PDict two_hosts)))
                  end)
        (fun _ => "2024-01-01T00:00:10")
        (fun _ => []).

(** A host at 85 % CPU. *)
Definition warm (h : string) : string * pyval :=
  (h, PDict [("cpu_usage", PInt 85); ("memory_usage", PInt 10);
             ("disk_usage", PInt 10)]).

(** The server answers with [hosts]; a POST of [{"cpu": 90}] is served just
    before the loop subscripts ALERT_THRESHOLDS for the [n]-th time. *)
Definition racing (hosts : dict) (n : nat) : env :=
  mkEnv (fun _ => Answered (mkResponse 200 (inr (PDict hosts))))
        (fun _ => "2024-01-01T00:00:10")
        (fun i => if Nat.eqb i n then [[("cpu", PInt 90)]] else []).

(** host1 lacks its disk reading; web1 comes after it. *)
Definition broken_then_web1 : dict :=
  [("host1", PDict [("cpu_usage", PInt 95); ("memory_usage", PInt 95)]);
   ("web1", PDict [("cpu_usage", PInt 99); ("memory_usage", PInt 99);
                   ("disk_usage", PInt 99)])].

(** The clock of a process that reads "t0", "t1", ... *)
Definition ticking (body : pyval) : env :=
  mkEnv (fun _ => Answered (mkResponse 200 (inr body)))
        (fun n => String.append "t" (String (Ascii.ascii_of_nat (48 + n)) ""))
        (fun _ => []).

(** * Properties *)

(** ** Comparisons of the scenario *)

Example gt_float_float : py_gt (PFloat (float64 185 (-1))) (PFloat (float64 80 0)) = Some true.
Proof. reflexivity. Qed.
Example gt_int_float : py_gt (PInt 95) (PFloat (float64 90 0)) = Some true.
Proof. reflexivity. Qed.
Example gt_equal : py_gt (PInt 80) (PFloat (float64 80 0)) = Some false.
Proof. reflexivity. Qed.
Example gt_str_float : py_gt (PStr "high") (PFloat (float64 80 0)) = None.
Proof. reflexivity. Qed.

(** ** Dictionaries *)

Module DictFacts.

Section Facts.
Context {A : Type}.
Implicit Types (d other : list (string * A)) (k key : string) (v : A).

Lemma get_set d key v k :
  Dict.get (Dict.set d key v) k
  = if String.eqb key k then Some v else Dict.get d k.
Proof.
  induction d as [|[k0 v0] rest IH]; simpl.
  - reflexivity.
  - destruct (String.eqb k0 key) eqn:Hk0; simpl.
    + apply String.eqb_eq in Hk0; subst k0.
      destruct (String.eqb key k); reflexivity.
    + rewrite IH.
      destruct (String.eqb k0 k) eqn:Hk; [|reflexivity].
      apply String.eqb_eq in Hk; subst k0.
      now rewrite String.eqb_sym, Hk0.
Qed.

Lemma get_app d other k :
  Dict.get (d ++ other) k
  = match Dict.get d k with Some v => Some v | None => Dict.get other k end.
Proof.
  induction d as [|[k0 v0] rest IH]; simpl; [reflexivity|].
  destruct (String.eqb k0 k); [reflexivity | apply IH].
Qed.

Lemma get_None d k : Dict.get d k = None <-> ~ In k (Dict.keys d).
Proof.
  induction d as [|[k0 v0] rest IH]; simpl.
  - tauto.
  - destruct (String.eqb k0 k) eqn:Hk.
    + apply String.eqb_eq in Hk. split; [discriminate | tauto].
    + apply String.eqb_neq in Hk. rewrite IH. tauto.
Qed.

Lemma get_In d k v : Dict.get d k = Some v -> In (k, v) d.
Proof.
  induction d as [|[k0 v0] rest IH]; simpl; [discriminate|].
  destruct (String.eqb k0 k) eqn:Hk.
  - apply String.eqb_eq in Hk. intros [= ->]. left; congruence.
  - intros H. right. now apply IH.
Qed.

Lemma In_get d k v : Dict.wf d -> In (k, v) d -> Dict.get d k = Some v.
Proof.
  unfold Dict.wf, Dict.keys.
  induction d as [|[k0 v0] rest IH]; simpl; [tauto|].
  intros Hnd [Heq | Hin]; inversion Hnd as [|? ? Hnotin Hrest]; subst.
  - injection Heq as -> ->. now rewrite String.eqb_refl.
  - destruct (String.eqb k0 k) eqn:Hk; [|now apply IH].
    apply String.eqb_eq in Hk; subst k0.
    exfalso. apply Hnotin. apply (in_map fst) in Hin. exact Hin.
Qed.

(** The last binding of a key in [other] wins; a key [other] does not
    name keeps what it had. *)
Lemma get_update d other k :
  Dict.get (Dict.update d other) k
  = match Dict.get (rev other) k with
    | Some v => Some v
    | None => Dict.get d k
    end.
Proof.
  unfold Dict.update. revert d.
  induction other as [|[k0 v0] rest IH]; intros d; simpl; [reflexivity|].
  rewrite IH, get_app, get_set. simpl.
  destruct (Dict.get (rev rest) k); [reflexivity|].
  destruct (String.eqb k0 k); reflexivity.
Qed.

Lemma get_rev d k : Dict.wf d -> Dict.get (rev d) k = Dict.get d k.
Proof.
  unfold Dict.wf, Dict.keys.
  induction d as [|[k0 v0] rest IH]; simpl; [reflexivity|].
  intros Hnd. inversion Hnd as [|? ? Hnotin Hrest]; subst.
  rewrite get_app, IH by assumption. simpl.
  destruct (String.eqb k0 k) eqn:Hk.
  - apply String.eqb_eq in Hk; subst k0.
    apply get_None in Hnotin. now rewrite Hnotin.
  - destruct (Dict.get rest k); reflexivity.
Qed.

Lemma get_update_wf d other k :
  Dict.wf other ->
  Dict.get (Dict.update d other) k
  = match Dict.get other k with
    | Some v => Some v
    | None => Dict.get d k
    end.
Proof. intros Hwf. now rewrite get_update, get_rev. Qed.
End Facts.

End DictFacts.

(** ** The loop under the lock *)

(** The loop over the hosts is the loop over their blocks. *)
Lemma for_each_hosts E hosts w :
  for_each hosts (check_host E) w = for_each (slots hosts) (check_slot E) w.
Proof.
  revert w. induction hosts as [|[h m] rest IH]; intros w; [reflexivity|].
  simpl. unfold check_host, bind. simpl.
  destruct (check_metric E h m cpu w) as [w1 [[]|e1]]; [|reflexivity].
  destruct (check_metric E h m memory w1) as [w2 [[]|e2]]; [|reflexivity].
  destruct (check_metric E h m disk w2) as [w3 [[]|e3]]; [|reflexivity].
  apply IH.
Qed.

(** A value that is no dict: the list is emptied and [items] raises. *)
Lemma check_alerts_locked_not_dict E v w :
  (forall d, v <> PDict d) ->
  check_alerts_locked E v w = (with_alerts [] w, Raise AttributeError).
Proof.
  intros Hv. unfold check_alerts_locked, bind, clear, items, raise.
  destruct v; try reflexivity. now destruct (Hv d).
Qed.

(** ** The loop under the lock, while no POST is served *)

Lemma extends_refl w : extends w w [] [].
Proof.
  constructor; try reflexivity; try (now rewrite app_nil_r).
  simpl. now rewrite Nat.add_0_r.
Qed.

Lemma extends_trans w0 w1 w2 e1 e2 r1 r2 :
  extends w0 w1 e1 r1 -> extends w1 w2 e2 r2 ->
  extends w0 w2 (e1 ++ e2) (r1 ++ r2).
Proof.
  intros [T1 A1 S1 C1 O1 P1 N1] [T2 A2 S2 C2 O2 P2 N2].
  constructor; try congruence.
  - now rewrite A2, A1, app_assoc.
  - rewrite C2, C1, length_app. lia.
  - now rewrite O2, O1, app_assoc.
Qed.

Section Quiet.

Variable E : env.
Hypothesis Hquiet : quiet E.

Lemma read_threshold_quiet key w :
  read_threshold E key w
  = (with_observed (observed w ++ [(key, Dict.get (ALERT_THRESHOLDS w) key)]) w,
     match Dict.get (ALERT_THRESHOLDS w) key with
     | Some t => Ok t
     | None => Raise (KeyError key)
     end).
Proof.
  unfold read_threshold. rewrite Hquiet. simpl.
  destruct (Dict.get (ALERT_THRESHOLDS w) key); reflexivity.
Qed.

(** One block: it raises what [verdict] says, or appends the one alert
    [verdict] describes, or leaves the list alone. *)
Lemma check_metric_quiet h m k w :
  let T := ALERT_THRESHOLDS w in
  let (w', r) := check_metric E h m k w in
  exists reads,
    read_from T reads /\
    match verdict T m k with
    | Raise e => r = Raise e /\ extends w w' [] reads
    | Ok None => r = Ok tt /\ extends w w' [] reads
    | Ok (Some (v, t)) =>
        r = Ok tt /\
        extends w w' [mkAlert h (type_label k) v t (now E (clock_reads w))] reads
    end.
Proof.
  intros T. unfold check_metric, verdict, bind, getitem, greater.
  destruct m as [| | | | |l|d];
    try (exists []; split; [constructor | split; [reflexivity | apply extends_refl]]).
  destruct (Dict.get d (usage_field k)) as [v|] eqn:Hv; unfold ret, raise;
    [| exists []; split; [constructor | split; [reflexivity | apply extends_refl]]].
  rewrite read_threshold_quiet. fold T.
  destruct (Dict.get T (threshold_key k)) as [t|] eqn:Ht.
  - destruct (py_gt v t) as [[|]|] eqn:Hgt.
    + rewrite read_threshold_quiet. simpl. fold T. rewrite Ht.
      unfold datetime_now, append. simpl.
      exists [(threshold_key k, Some t); (threshold_key k, Some t)].
      split; [repeat constructor; simpl; now rewrite Ht|].
      split; [reflexivity|].
      destruct w; constructor; simpl; try reflexivity.
      * lia.
      * now rewrite <- app_assoc.
    + exists [(threshold_key k, Some t)].
      split; [repeat constructor; simpl; now rewrite Ht|].
      split; [reflexivity|].
      destruct w; constructor; simpl; try reflexivity;
        [now rewrite app_nil_r | lia].
    + exists [(threshold_key k, Some t)].
      split; [repeat constructor; simpl; now rewrite Ht|].
      split; [reflexivity|].
      destruct w; constructor; simpl; try reflexivity;
        [now rewrite app_nil_r | lia].
  - exists [(threshold_key k, None)].
    split; [repeat constructor; simpl; now rewrite Ht|].
    split; [reflexivity|].
    destruct w; constructor; simpl; try reflexivity;
      [now rewrite app_nil_r | lia].
Qed.

Lemma for_each_quiet sl w :
  let T := ALERT_THRESHOLDS w in
  let (w', r) := for_each sl (check_slot E) w in
  exists reads,
    read_from T reads /\
    r = snd (sweep T sl) /\
    extends w w' (stamped (now E) (clock_reads w) (fst (sweep T sl))) reads.
Proof.
  revert w. induction sl as [|[[h m] k] rest IH]; intros w T.
  - simpl. exists []. repeat split; try constructor; try reflexivity;
      try (now rewrite app_nil_r). simpl; lia.
  - simpl for_each. unfold bind. simpl (check_slot E).
    pose proof (check_metric_quiet h m k w) as Hm. fold T in Hm. simpl in Hm.
    destruct (check_metric E h m k w) as [w1 r1].
    destruct Hm as (reads1 & Hr1 & Hm). simpl sweep.
    destruct (verdict T m k) as [[[v t]|]|e].
    + destruct Hm as [-> Hext].
      specialize (IH w1). simpl in IH.
      rewrite (ext_thresholds _ _ _ _ Hext) in IH. fold T in IH.
      rewrite (ext_clock _ _ _ _ Hext) in IH. simpl List.length in IH.
      destruct (for_each rest (check_slot E) w1) as [w2 r2].
      destruct IH as (reads2 & Hr2 & -> & Hext2).
      destruct (sweep T rest) as [found r]. simpl in *.
      exists (reads1 ++ reads2). split; [now apply Forall_app|].
      split; [reflexivity|].
      replace (S (clock_reads w)) with (clock_reads w + 1)%nat by lia.
      apply (extends_trans _ _ _ _ _ _ _ Hext Hext2).
    + destruct Hm as [-> Hext].
      specialize (IH w1). simpl in IH.
      rewrite (ext_thresholds _ _ _ _ Hext) in IH. fold T in IH.
      rewrite (ext_clock _ _ _ _ Hext) in IH. simpl List.length in IH.
      rewrite Nat.add_0_r in IH.
      destruct (for_each rest (check_slot E) w1) as [w2 r2].
      destruct IH as (reads2 & Hr2 & -> & Hext2).
      exists (reads1 ++ reads2). split; [now apply Forall_app|].
      split; [reflexivity|].
      apply (extends_trans _ _ _ _ _ _ _ Hext Hext2).
    + destruct Hm as [-> Hext]. exists reads1. simpl. auto.
Qed.

(** The block under the lock: the list is emptied, then filled with the
    findings up to the first exception. *)
Lemma check_alerts_locked_quiet hosts w :
  let T := ALERT_THRESHOLDS w in
  let (w', r) := check_alerts_locked E (PDict hosts) w in
  exists reads,
    read_from T reads /\
    r = snd (sweep T (slots hosts)) /\
    extends (with_alerts [] w) w'
            (stamped (now E) (clock_reads w) (fst (sweep T (slots hosts)))) reads.
Proof.
  intros T. unfold check_alerts_locked, bind, clear, items, ret.
  rewrite for_each_hosts.
  apply (for_each_quiet (slots hosts) (with_alerts [] w)).
Qed.

End Quiet.

(** ** What [sweep] finds *)

Lemma untimed_stamped clock n l :
  map untimed (stamped clock n l) = map finding_untimed l.
Proof.
  revert n. induction l as [|[[[h k] v] t] rest IH]; intros n; simpl;
    [reflexivity | now rewrite IH].
Qed.

Lemma alert_key_stamped clock n l :
  map alert_key (stamped clock n l) = map finding_key l.
Proof.
  revert n. induction l as [|[[[h k] v] t] rest IH]; intros n; simpl;
    [reflexivity | now rewrite IH].
Qed.

(** A sweep that does not raise keeps, in order, the blocks whose observed
    value exceeds the threshold. *)
Lemma sweep_ok_keys T sl :
  snd (sweep T sl) = Ok tt ->
  map finding_key (fst (sweep T sl)) = map slot_key (filter (exceeds T) sl).
Proof.
  induction sl as [|[[h m] k] rest IH]; simpl; [reflexivity|].
  unfold exceeds at 1. simpl.
  destruct (verdict T m k) as [[[v t]|]|e]; simpl.
  - destruct (sweep T rest) as [found r]. simpl in *.
    intros Hr. now rewrite IH.
  - exact IH.
  - discriminate.
Qed.

Lemma sweep_ok_In T sl h k v t :
  snd (sweep T sl) = Ok tt ->
  In (h, k, v, t) (fst (sweep T sl))
  <-> exists m, In (h, m, k) sl /\ verdict T m k = Ok (Some (v, t)).
Proof.
  induction sl as [|[[h0 m0] k0] rest IH]; simpl.
  - intros _. split; [tauto | intros (m & [] & _)].
  - destruct (verdict T m0 k0) as [[[v0 t0]|]|e] eqn:Hv; simpl.
    + destruct (sweep T rest) as [found r]. simpl in *. intros Hr.
      specialize (IH Hr). split.
      * intros [Heq | Hin].
        -- injection Heq as <- <- <- <-. exists m0. auto.
        -- apply IH in Hin as (m & Hin & Hm). exists m. auto.
      * intros (m & [Heq | Hin] & Hm).
        -- injection Heq as <- <- <-. rewrite Hv in Hm.
           injection Hm as <- <-. now left.
        -- right. apply IH. exists m. auto.
    + intros Hr. specialize (IH Hr). rewrite IH. split.
      * intros (m & Hin & Hm). exists m. auto.
      * intros (m & [Heq | Hin] & Hm).
        -- injection Heq as <- <- <-. rewrite Hv in Hm. discriminate.
        -- exists m. auto.
    + discriminate.
Qed.

Lemma In_slots hosts h m k :
  In (h, m, k) (slots hosts) <-> In (h, m) hosts.
Proof.
  unfold slots. rewrite in_flat_map. split.
  - intros ([h0 m0] & Hin & Hs). simpl in Hs.
    destruct Hs as [Hs | [Hs | [Hs | []]]]; injection Hs as <- <- _; exact Hin.
  - intros Hin. exists (h, m). split; [exact Hin|]. simpl.
    destruct k; auto.
Qed.

Lemma In_stamped clock n l h k v t :
  In (h, k, v, t) l <->
  exists ts, In (mkAlert h (type_label k) v t ts) (stamped clock n l).
Proof.
  revert n. induction l as [|[[[h0 k0] v0] t0] rest IH]; intros n; simpl.
  - split; [tauto | intros (ts & [])].
  - split.
    + intros [Heq | Hin].
      * injection Heq as <- <- <- <-. exists (clock n). now left.
      * apply (IH (S n)) in Hin as (ts & Hin). exists ts. now right.
    + intros (ts & [Heq | Hin]).
      * injection Heq as <- Hk <- <- _. left.
        destruct k0, k; try discriminate; reflexivity.
      * right. apply (IH (S n)). now exists ts.
Qed.

(** ** Comparison of numbers *)

Lemma py_gt_numeric a b x y :
  as_number a = Some x -> as_number b = Some y ->
  py_gt a b = Some (number_gt x y).
Proof.
  intros Ha Hb.
  destruct a; try discriminate; destruct b; try discriminate;
    simpl in *; injection Ha as <-; injection Hb as <-; reflexivity.
Qed.

(** Equal numbers are not one greater than the other. *)
Lemma number_gt_same x y : number_same x y = true -> number_gt x y = false.
Proof.
  destruct x as [| | |m1 e1], y as [| | |m2 e2]; simpl; try reflexivity;
    try discriminate.
  intros H. apply Z.eqb_eq in H. rewrite H. apply Z.ltb_irrefl.
Qed.

(** ** What the statements of a cycle leave alone *)

Lemma aside_refl w : aside w w.
Proof. now constructor. Qed.

Lemma aside_trans w0 w1 w2 : aside w0 w1 -> aside w1 w2 -> aside w0 w2.
Proof. intros [] []. constructor; congruence. Qed.

(** Serving POSTs changes the thresholds and nothing else. *)
Lemma serve_posts_only_thresholds posts w :
  serve_posts posts w
  = with_thresholds (ALERT_THRESHOLDS (serve_posts posts w)) w.
Proof.
  unfold serve_posts. revert w.
  induction posts as [|p rest IH]; intros w; simpl.
  - now destruct w.
  - rewrite IH at 1. now destruct w.
Qed.

Lemma serve_posts_aside posts w : aside w (serve_posts posts w).
Proof. rewrite serve_posts_only_thresholds. now constructor. Qed.

Section Aside.

Variable E : env.

Lemma read_threshold_aside key w : aside w (fst (read_threshold E key w)).
Proof.
  unfold read_threshold.
  pose proof (serve_posts_aside (foreign E (List.length (observed w))) w) as [].
  destruct (Dict.get _ key); constructor; simpl; assumption.
Qed.

Lemma check_metric_aside h m k w : aside w (fst (check_metric E h m k w)).
Proof.
  unfold check_metric, bind, getitem, greater, raise, ret.
  destruct m; try apply aside_refl.
  destruct (Dict.get d (usage_field k)) as [v|]; [|apply aside_refl].
  pose proof (read_threshold_aside (threshold_key k) w) as H1.
  destruct (read_threshold E (threshold_key k) w) as [w1 [t|e]];
    simpl in H1; [|exact H1].
  destruct (py_gt v t) as [[|]|]; try exact H1.
  pose proof (read_threshold_aside (threshold_key k) w1) as H2.
  destruct (read_threshold E (threshold_key k) w1) as [w2 [t2|e2]];
    simpl in H2; [|exact (aside_trans _ _ _ H1 H2)].
  simpl. apply (aside_trans _ _ _ H1).
  destruct H2. constructor; simpl; assumption.
Qed.

Lemma check_host_aside hm w : aside w (fst (check_host E hm w)).
Proof.
  unfold check_host, bind.
  pose proof (check_metric_aside (fst hm) (snd hm) cpu w) as H1.
  destruct (check_metric E (fst hm) (snd hm) cpu w) as [w1 [[]|]];
    simpl in H1; [|exact H1].
  pose proof (check_metric_aside (fst hm) (snd hm) memory w1) as H2.
  destruct (check_metric E (fst hm) (snd hm) memory w1) as [w2 [[]|]];
    simpl in H2; [|exact (aside_trans _ _ _ H1 H2)].
  pose proof (check_metric_aside (fst hm) (snd hm) disk w2) as H3.
  apply (aside_trans _ _ _ H1), (aside_trans _ _ _ H2), H3.
Qed.

Lemma for_each_aside hosts w :
  aside w (fst (for_each hosts (check_host E) w)).
Proof.
  revert w. induction hosts as [|hm rest IH]; intros w; simpl.
  - apply aside_refl.
  - unfold bind. pose proof (check_host_aside hm w) as H1.
    destruct (check_host E hm w) as [w1 [[]|]]; simpl in H1; [|exact H1].
    apply (aside_trans _ _ _ H1), IH.
Qed.

Lemma check_alerts_locked_aside v w :
  aside w (fst (check_alerts_locked E v w)).
Proof.
  unfold check_alerts_locked, bind, clear, items, ret, raise.
  destruct v; try (now constructor).
  apply (aside_trans _ (with_alerts [] w)); [now constructor|].
  apply for_each_aside.
Qed.

(** What one turn of the loop does, by the answer to its request. *)
Lemma check_alerts_try_cases w :
  let url := String.append GO_SERVER_URL "/latest" in
  let w0 := with_sent (sent w ++ [url]) w in
  check_alerts_try E w
  = match net E (List.length (sent w)) with
    | Refused msg => (w0, Raise (RequestException msg))
    | Answered r =>
        if status_code r =? 200 then
          match json r with
          | inl msg => (w0, Raise (JSONDecodeError msg))
          | inr v => check_alerts_locked E v w0
          end
        else (w0, Ok tt)
    end.
Proof.
  unfold check_alerts_try, bind, requests_get, response_json, raise, ret.
  destruct (net E (List.length (sent w))) as [msg|r]; [reflexivity|].
  destruct (status_code r =? 200); [|reflexivity].
  destruct (json r); reflexivity.
Qed.

(** Every turn sends one request and ends in the sleep. *)
Lemma check_alerts_iter_sent w :
  sent (check_alerts_iter E w)
  = sent w ++ [String.append GO_SERVER_URL "/latest"].
Proof.
  unfold check_alerts_iter. rewrite check_alerts_try_cases.
  destruct (net E (List.length (sent w))) as [msg|r]; [reflexivity|].
  destruct (status_code r =? 200); [|reflexivity].
  destruct (json r) as [msg|v]; [reflexivity|].
  pose proof (check_alerts_locked_aside v
                (with_sent (sent w ++ [String.append GO_SERVER_URL "/latest"]) w))
    as [Hs _ _].
  destruct (check_alerts_locked E v _) as [w1 [[]|e]]; simpl in *; exact Hs.
Qed.

Lemma check_alerts_iter_naps w :
  naps (check_alerts_iter E w) = S (naps w).
Proof.
  unfold check_alerts_iter. rewrite check_alerts_try_cases.
  destruct (net E (List.length (sent w))) as [msg|r]; [reflexivity|].
  destruct (status_code r =? 200); [|reflexivity].
  destruct (json r) as [msg|v]; [reflexivity|].
  pose proof (check_alerts_locked_aside v
                (with_sent (sent w ++ [String.append GO_SERVER_URL "/latest"]) w))
    as [_ _ Hn].
  destruct (check_alerts_locked E v _) as [w1 [[]|e]]; simpl in *;
    now rewrite Hn.
Qed.

Lemma check_alerts_naps n w :
  naps (check_alerts E n w) = (naps w + n)%nat.
Proof.
  revert w. induction n as [|n IH]; intros w; simpl.
  - now rewrite Nat.add_0_r.
  - rewrite IH, check_alerts_iter_naps. lia.
Qed.

Lemma check_alerts_sent n w :
  List.length (sent (check_alerts E n w)) = (List.length (sent w) + n)%nat.
Proof.
  revert w. induction n as [|n IH]; intros w; simpl.
  - now rewrite Nat.add_0_r.
  - rewrite IH, check_alerts_iter_sent, length_app. simpl. lia.
Qed.

End Aside.

(** * The claims *)

(** ** Cycles that fail *)

(** C1, as stated, fails: a cycle whose evaluation raises [KeyError] after
    the CPU block of host1 is contained (the error is printed and the loop
    sleeps), but the list has been emptied and holds the alert appended
    before the exception, not the alert it held before the cycle; a body
    that is JSON but no object leaves the list empty. *)
Lemma failed_evaluation_changes_alerts :
  let w1 := check_alerts_iter (answering truncated_metrics) stale_world in
  let w2 := check_alerts_iter (answering (PList [])) stale_world in
  active_alerts stale_world = [stale] /\
  stdout w1 = [KeyError "memory_usage"] /\
  naps w1 = 1%nat /\
  active_alerts w1
  = [mkAlert "host1" "CPU" (PInt 95) (PFloat (float64 80 0)) "2024-01-01T00:00:10"] /\
  active_alerts w1 <> active_alerts stale_world /\
  stdout w2 = [AttributeError] /\
  active_alerts w2 = [] /\
  active_alerts w2 <> active_alerts stale_world.
Proof.
  vm_compute. repeat split; try reflexivity; discriminate.
Qed.

(** C1 (amended): no turn of the loop stops it, whatever the turn raises:
    after [n] turns the loop has slept [n] times.  When the fetch of a turn
    fails (the request raises, the status is not 200, or the body is not
    JSON), [active_alerts] after the turn is the list it was before, and
    GET /api/alerts answers the same. *)
Theorem failed_fetch_keeps_alerts (E : env) (w : world) :
  (forall n, naps (check_alerts E n w) = (naps w + n)%nat) /\
  (fetch_fails (net E (List.length (sent w))) ->
   active_alerts (check_alerts_iter E w) = active_alerts w /\
   snd (api_alerts (check_alerts_iter E w)) = snd (api_alerts w)).
Proof.
  split; [intros n; apply check_alerts_naps|].
  intros Hfail.
  assert (active_alerts (check_alerts_iter E w) = active_alerts w) as Heq.
  { unfold check_alerts_iter. rewrite check_alerts_try_cases.
    destruct (net E (List.length (sent w))) as [msg|r]; [reflexivity|].
    simpl in Hfail.
    destruct (status_code r =? 200) eqn:Hs; [|reflexivity].
    apply Z.eqb_eq in Hs.
    destruct Hfail as [Hne | (msg & Hj)]; [contradiction|].
    now rewrite Hj. }
  split; [exact Heq|].
  unfold api_alerts. cbn [snd]. now rewrite Heq.
Qed.

(** The server is down while [stale] is listed: the alert stays. *)
Lemma failed_fetch_keeps_alerts_witness :
  let E := mkEnv (fun _ => Refused "Connection refused") (fun _ => "") (fun _ => []) in
  fetch_fails (net E (List.length (sent stale_world))) /\
  active_alerts (check_alerts_iter E stale_world) = [stale].
Proof.
  intros E. split; [exact I|].
  exact (proj1 (proj2 (failed_fetch_keeps_alerts E stale_world) I)).
Defined.

(** ** What a failed fetch reports *)

(** C5, as stated, fails: an answer with status 503 raises nothing; the turn
    prints no error, it only records the request and sleeps. *)
Lemma bad_status_is_silent :
  let E := mkEnv (fun _ => Answered (mkResponse 503 (inl "Service Unavailable")))
                 (fun _ => "") (fun _ => []) in
  check_alerts_try E stale_world
  = (with_sent [latest_url] stale_world, Ok tt) /\
  stdout (check_alerts_iter E stale_world) = [] /\
  check_alerts_iter E stale_world
  = with_naps 1 (with_sent [latest_url] stale_world).
Proof. vm_compute. repeat split; reflexivity. Qed.

(** C5 (amended): every turn of the loop sends exactly one request, to
    /latest, whatever comes back (no retry).  A request that raises and a
    body that is not JSON raise an exception carrying the cause, which the
    turn prints; a body that is JSON but no object raises [AttributeError],
    printed too; an answer whose status is not 200 raises nothing and
    prints nothing, and leaves the alerts alone. *)
Theorem fetch_failure_report (E : env) (w : world) :
  let w' := check_alerts_iter E w in
  sent w' = sent w ++ [latest_url] /\
  match net E (List.length (sent w)) with
  | Refused msg => stdout w' = stdout w ++ [RequestException msg]
  | Answered r =>
      if status_code r =? 200 then
        match json r with
        | inl msg => stdout w' = stdout w ++ [JSONDecodeError msg]
        | inr (PDict _) => True
        | inr _ => stdout w' = stdout w ++ [AttributeError]
        end
      else stdout w' = stdout w /\ active_alerts w' = active_alerts w
  end.
Proof.
  intros w'. split; [apply check_alerts_iter_sent|].
  subst w'. unfold check_alerts_iter. rewrite check_alerts_try_cases.
  destruct (net E (List.length (sent w))) as [msg|r]; [reflexivity|].
  destruct (status_code r =? 200); [|split; reflexivity].
  destruct (json r) as [msg|v]; [reflexivity|].
  destruct v; try exact I;
    (rewrite check_alerts_locked_not_dict by discriminate; reflexivity).
Qed.

(** ** Which alerts a cycle lists *)

Lemma verdict_Some T m k v t :
  verdict T m k = Ok (Some (v, t))
  <-> exists d, m = PDict d /\
                Dict.get d (usage_field k) = Some v /\
                Dict.get T (threshold_key k) = Some t /\
                py_gt v t = Some true.
Proof.
  unfold verdict. split.
  - destruct m; try discriminate.
    destruct (Dict.get d (usage_field k)) as [v0|] eqn:Hv; [|discriminate].
    destruct (Dict.get T (threshold_key k)) as [t0|] eqn:Ht; [|discriminate].
    destruct (py_gt v0 t0) as [[|]|] eqn:Hgt; try discriminate.
    intros [= <- <-]. exists d. auto.
  - intros (d & -> & -> & -> & ->). reflexivity.
Qed.

Lemma verdict_numeric T m k :
  numeric_thresholds T ->
  (exists d, m = PDict d /\
             forall k, exists v, Dict.get d (usage_field k) = Some v /\ numeric v) ->
  exists o, verdict T m k = Ok o.
Proof.
  intros HT (d & -> & Hd). unfold verdict.
  destruct (Hd k) as (v & -> & Hv). destruct (HT k) as (t & -> & Ht).
  unfold numeric in Hv, Ht.
  destruct (as_number v) as [x|] eqn:Hx; [|contradiction].
  destruct (as_number t) as [y|] eqn:Hy; [|contradiction].
  rewrite (py_gt_numeric v t x y Hx Hy).
  destruct (number_gt x y); eauto.
Qed.

Lemma sweep_numeric T sl :
  (forall h m k, In (h, m, k) sl -> exists o, verdict T m k = Ok o) ->
  snd (sweep T sl) = Ok tt.
Proof.
  induction sl as [|[[h m] k] rest IH]; intros Hall; simpl; [reflexivity|].
  destruct (Hall h m k (or_introl eq_refl)) as (o & ->).
  assert (snd (sweep T rest) = Ok tt) as Hrest
    by (apply IH; intros; eapply Hall; right; eassumption).
  destruct o as [[v t]|]; [|exact Hrest].
  destruct (sweep T rest); exact Hrest.
Qed.

Lemma distinct_keys_filter {K V : Type} (key : V -> K) (keep : V -> bool)
  (xs : list V) (Hnd : NoDup (map key xs)) :
  NoDup (map key (filter keep xs)).
Proof.
  induction xs as [|x rest IH]; simpl in *; [exact Hnd|].
  inversion Hnd as [|? ? Hnotin Hrest]; subst.
  destruct (keep x); simpl; [|auto].
  constructor; [|auto].
  intros Hin. apply Hnotin.
  apply in_map_iff in Hin as (y & Hy & Hin).
  apply filter_In in Hin as [Hin _].
  apply in_map_iff. eauto.
Qed.

Lemma slot_keys hosts :
  map slot_key (slots hosts)
  = flat_map (fun hm => [(fst hm, "CPU"); (fst hm, "Memory"); (fst hm, "Disk")])
             hosts.
Proof.
  induction hosts as [|[h m] rest IH]; simpl; [reflexivity|].
  now rewrite IH.
Qed.

Lemma NoDup_slot_keys hosts :
  Dict.wf hosts -> NoDup (map slot_key (slots hosts)).
Proof.
  unfold Dict.wf, Dict.keys. rewrite slot_keys.
  induction hosts as [|[h m] rest IH]; simpl; [constructor|].
  intros Hnd. inversion Hnd as [|? ? Hnotin Hrest]; subst.
  assert (forall lbl,
             ~ In (h, lbl)
                  (flat_map (fun hm => [(fst hm, "CPU"); (fst hm, "Memory");
                                        (fst hm, "Disk")]) rest)) as Hfresh.
  { intros lbl Hin. apply in_flat_map in Hin as ([h0 m0] & Hin & Hs).
    apply Hnotin. apply in_map_iff. exists (h0, m0). split; [|exact Hin].
    simpl in Hs. destruct Hs as [Hs | [Hs | [Hs | []]]]; now injection Hs. }
  repeat constructor; simpl; try apply Hfresh; try (now apply IH).
  - intros [H | [H | H]]; try discriminate. now apply (Hfresh "CPU").
  - intros [H | H]; try discriminate. now apply (Hfresh "Memory").
Qed.

Section Listing.

Variable E : env.
Hypothesis Hquiet : quiet E.
Variables (w : world) (hosts : dict).

Let T := ALERT_THRESHOLDS w.
Let run := check_alerts_locked E (PDict hosts) w.

Lemma run_alerts :
  active_alerts (fst run)
  = stamped (now E) (clock_reads w) (fst (sweep T (slots hosts))).
Proof.
  pose proof (check_alerts_locked_quiet E Hquiet hosts w) as H.
  fold run in H. destruct run as [w' r].
  destruct H as (reads & _ & _ & Hext). simpl.
  now rewrite (ext_alerts _ _ _ _ Hext).
Qed.

Lemma run_result : snd run = snd (sweep T (slots hosts)).
Proof.
  pose proof (check_alerts_locked_quiet E Hquiet hosts w) as H.
  fold run in H. destruct run as [w' r].
  now destruct H as (reads & _ & -> & _).
Qed.

Lemma run_numeric :
  numeric_thresholds T -> numeric_metrics hosts -> snd run = Ok tt.
Proof.
  intros HT Hm. rewrite run_result. apply sweep_numeric.
  intros h m k Hin. apply In_slots in Hin.
  apply verdict_numeric; [exact HT | exact (Hm h m Hin)].
Qed.

Lemma run_iff h k v t :
  Dict.wf hosts -> snd run = Ok tt ->
  (exists ts, In (mkAlert h (type_label k) v t ts) (active_alerts (fst run)))
  <-> (exists d, Dict.get hosts h = Some (PDict d) /\
                 Dict.get d (usage_field k) = Some v /\
                 Dict.get T (threshold_key k) = Some t /\
                 py_gt v t = Some true).
Proof.
  intros Hwf Hok. rewrite run_result in Hok.
  rewrite run_alerts, <- In_stamped, (sweep_ok_In _ _ _ _ _ _ Hok).
  split.
  - intros (m & Hin & Hv). apply In_slots in Hin.
    apply verdict_Some in Hv as (d & -> & Hv).
    exists d. split; [now apply DictFacts.In_get | exact Hv].
  - intros (d & Hh & Hv). exists (PDict d). split.
    + apply In_slots. now apply DictFacts.get_In.
    + apply verdict_Some. exists d. auto.
Qed.

Lemma run_keys :
  snd run = Ok tt ->
  map alert_key (active_alerts (fst run))
  = map slot_key (filter (exceeds T) (slots hosts)).
Proof.
  intros Hok. rewrite run_result in Hok.
  now rewrite run_alerts, alert_key_stamped, sweep_ok_keys.
Qed.

End Listing.

Lemma quiet_answering body : quiet (answering body).
Proof. intros n. reflexivity. Qed.

Lemma scenario_hosts_wf : Dict.wf scenario_hosts.
Proof. repeat constructor. simpl. tauto. Qed.

(** C2: while no POST is served, the block under the lock, run on a snapshot
    [hosts] with the thresholds [T]: it completes when readings and
    thresholds are numbers; when it completes, [active_alerts] holds an alert
    of host [h] and kind [k] with value [v] and threshold [t] exactly when
    [v] is the reading [hosts[h][k_usage]], [t] is [T[k]] and [v > t]; no host
    and kind is listed twice, and a reading equal to its threshold is not
    listed.  With the default thresholds, the scenario snapshot gives the CPU
    alert (92.5 over 80) and the Disk alert (95 over 90), and no other. *)
Theorem alert_iff_exceeds (E : env) (w : world) (hosts : dict) :
  quiet E -> Dict.wf hosts ->
  let T := ALERT_THRESHOLDS w in
  let run := check_alerts_locked E (PDict hosts) w in
  (numeric_thresholds T -> numeric_metrics hosts -> snd run = Ok tt) /\
  (snd run = Ok tt ->
   (forall h k v t,
      (exists ts, In (mkAlert h (type_label k) v t ts) (active_alerts (fst run)))
      <-> (exists d, Dict.get hosts h = Some (PDict d) /\
                     Dict.get d (usage_field k) = Some v /\
                     Dict.get T (threshold_key k) = Some t /\
                     py_gt v t = Some true)) /\
   NoDup (map alert_key (active_alerts (fst run))) /\
   (forall h k d v t x y,
      Dict.get hosts h = Some (PDict d) ->
      Dict.get d (usage_field k) = Some v ->
      Dict.get T (threshold_key k) = Some t ->
      as_number v = Some x -> as_number t = Some y ->
      number_same x y = true ->
      forall a, In a (active_alerts (fst run)) ->
                ~ (hostname a = h /\ type a = type_label k))) /\
  (T = ALERT_THRESHOLDS initial_world ->
   active_alerts (fst (check_alerts_locked E (PDict scenario_hosts) w))
   = [mkAlert "host1" "CPU" (PFloat (float64 185 (-1))) (PFloat (float64 80 0))
              (now E (clock_reads w));
      mkAlert "host1" "Disk" (PInt 95) (PFloat (float64 90 0))
              (now E (S (clock_reads w)))]).
Proof.
  intros Hquiet Hwf T run. split; [|split].
  - apply run_numeric; assumption.
  - intros Hok. split; [|split].
    + intros h k v t. apply run_iff; assumption.
    + subst run T. rewrite run_keys by assumption.
      apply distinct_keys_filter, NoDup_slot_keys, Hwf.
    + intros h k d v t x y Hh Hv Ht Hx Hy Hsame a Hin [Hhost Htype].
      destruct a as [ah aty av at_ ats]. simpl in Hhost, Htype. subst ah aty.
      assert (exists ts, In (mkAlert h (type_label k) av at_ ts)
                            (active_alerts (fst run))) as Hex by eauto.
      apply (run_iff E Hquiet w hosts h k av at_ Hwf Hok) in Hex
        as (d' & Hh' & Hv' & Ht' & Hgt).
      fold T in Ht'.
      rewrite Hh in Hh'. injection Hh' as <-.
      rewrite Hv in Hv'. injection Hv' as <-.
      rewrite Ht in Ht'. injection Ht' as <-.
      rewrite (py_gt_numeric v t x y Hx Hy), (number_gt_same x y Hsame) in Hgt.
      discriminate.
  - intros HT. rewrite run_alerts by assumption. fold T. rewrite HT.
    reflexivity.
Qed.

Lemma alert_iff_exceeds_witness :
  let E := answering (PDict scenario_hosts) in
  quiet E /\ Dict.wf scenario_hosts /\
  active_alerts (fst (check_alerts_locked E (PDict scenario_hosts) initial_world))
  = [mkAlert "host1" "CPU" (PFloat (float64 185 (-1))) (PFloat (float64 80 0))
             "2024-01-01T00:00:10";
     mkAlert "host1" "Disk" (PInt 95) (PFloat (float64 90 0))
             "2024-01-01T00:00:10"].
Proof.
  intros E. split; [apply quiet_answering|]. split; [apply scenario_hosts_wf|].
  exact (proj2 (proj2 (alert_iff_exceeds E initial_world scenario_hosts
                         (quiet_answering _) scenario_hosts_wf)) eq_refl).
Defined.

(** ** The order of the alerts *)

Lemma subseq_nil_l {A : Type} (l : list A) : subseq [] l.
Proof. induction l; constructor; assumption. Qed.

Lemma subseq_refl {A : Type} (l : list A) : subseq l l.
Proof. induction l; constructor; assumption. Qed.

Lemma subseq_app {A : Type} (l1 l2 l3 l4 : list A) :
  subseq l1 l2 -> subseq l3 l4 -> subseq (l1 ++ l3) (l2 ++ l4).
Proof.
  intros H12 H34. induction H12; simpl; try constructor; assumption.
Qed.

Section Order.

Variable E : env.

Lemma read_threshold_alerts key w :
  active_alerts (fst (read_threshold E key w)) = active_alerts w.
Proof.
  unfold read_threshold.
  rewrite (serve_posts_only_thresholds (foreign E (List.length (observed w))) w).
  destruct (Dict.get _ key); reflexivity.
Qed.

(** One block appends at most one alert, of its host and its type,
    whatever is posted meanwhile. *)
Lemma check_metric_appends h m k w :
  exists emitted,
    active_alerts (fst (check_metric E h m k w)) = active_alerts w ++ emitted /\
    subseq (map alert_key emitted) [(h, type_label k)].
Proof.
  assert (forall w0, active_alerts w0 = active_alerts w ->
            exists emitted, active_alerts w0 = active_alerts w ++ emitted /\
                            subseq (map alert_key emitted) [(h, type_label k)])
    as Hnone.
  { intros w0 H0. exists []. rewrite app_nil_r. split; [exact H0|].
    apply subseq_nil_l. }
  unfold check_metric, bind, getitem, greater, raise, ret.
  destruct m; try (now apply Hnone).
  destruct (Dict.get d (usage_field k)) as [v|]; [|now apply Hnone].
  pose proof (read_threshold_alerts (threshold_key k) w) as H1.
  destruct (read_threshold E (threshold_key k) w) as [w1 [t|e]];
    simpl in H1; [|now apply Hnone].
  destruct (py_gt v t) as [[|]|]; try (now apply Hnone).
  pose proof (read_threshold_alerts (threshold_key k) w1) as H2.
  destruct (read_threshold E (threshold_key k) w1) as [w2 [t2|e2]];
    simpl in H2; [|apply Hnone; simpl; congruence].
  simpl. eexists. split; [rewrite H2, H1; reflexivity|].
  simpl. apply subseq_refl.
Qed.

Lemma for_each_appends sl w :
  exists emitted,
    active_alerts (fst (for_each sl (check_slot E) w)) = active_alerts w ++ emitted /\
    subseq (map alert_key emitted) (map slot_key sl).
Proof.
  revert w. induction sl as [|[[h m] k] rest IH]; intros w.
  - exists []. simpl. rewrite app_nil_r. split; [reflexivity | constructor].
  - simpl for_each. unfold bind. simpl check_slot.
    destruct (check_metric_appends h m k w) as (e1 & H1 & S1).
    destruct (check_metric E h m k w) as [w1 [[]|e]]; simpl in H1.
    + destruct (IH w1) as (e2 & H2 & S2).
      exists (e1 ++ e2). split.
      * now rewrite H2, H1, app_assoc.
      * rewrite map_app. apply (subseq_app _ [_] _ _ S1 S2).
    + exists e1. split; [exact H1|].
      rewrite <- (app_nil_r (map alert_key e1)).
      apply (subseq_app _ [_] _ _ S1), subseq_nil_l.
Qed.

Lemma run_in_order hosts w :
  subseq (map alert_key (active_alerts (fst (check_alerts_locked E (PDict hosts) w))))
         (map slot_key (slots hosts)).
Proof.
  unfold check_alerts_locked, bind, clear, items, ret.
  rewrite for_each_hosts.
  destruct (for_each_appends (slots hosts) (with_alerts [] w)) as (e & He & Hs).
  rewrite He. exact Hs.
Qed.

End Order.

(** C10: the block under the lock lists the alerts in the order of the
    loop: host after host as [items()] yields them, and for one host CPU,
    then Memory, then Disk; this whatever is posted meanwhile.  When nothing
    is posted and the run completes, the (host, type) pairs of
    [active_alerts] are those of the blocks whose reading exceeds the
    threshold, in the order of the blocks. *)
Theorem alerts_in_loop_order (E : env) (w : world) (hosts : dict) :
  let T := ALERT_THRESHOLDS w in
  let run := check_alerts_locked E (PDict hosts) w in
  subseq (map alert_key (active_alerts (fst run)))
         (flat_map (fun hm => [(fst hm, "CPU"); (fst hm, "Memory"); (fst hm, "Disk")])
                   hosts) /\
  (quiet E -> snd run = Ok tt ->
   map alert_key (active_alerts (fst run))
   = map slot_key (filter (exceeds T) (slots hosts))).
Proof.
  intros T run. split.
  - rewrite <- slot_keys. apply run_in_order.
  - intros Hquiet Hok. apply run_keys; assumption.
Qed.

Lemma alerts_in_loop_order_witness :
  let E := answering (PDict two_hosts) in
  let run := check_alerts_locked E (PDict two_hosts) initial_world in
  quiet E /\ snd run = Ok tt /\
  map alert_key (active_alerts (fst run))
  = [("web2", "CPU"); ("web2", "Memory"); ("web2", "Disk"); ("web1", "Memory")].
Proof.
  intros E run. split; [apply quiet_answering|]. split; [reflexivity|].
  exact (proj2 (alerts_in_loop_order E initial_world two_hosts)
               (quiet_answering _) eq_refl).
Defined.

(** ** Two runs on the same input *)

Lemma stamped_ext c1 c2 n1 n2 l :
  (forall i, c1 (n1 + i)%nat = c2 (n2 + i)%nat) ->
  stamped c1 n1 l = stamped c2 n2 l.
Proof.
  revert n1 n2. induction l as [|[[[h k] v] t] rest IH]; intros n1 n2 Hc; simpl.
  - reflexivity.
  - f_equal.
    + f_equal. specialize (Hc 0%nat). now rewrite !Nat.add_0_r in Hc.
    + apply IH. intros i. specialize (Hc (S i)).
      now rewrite !Nat.add_succ_r in Hc.
Qed.

(** C4, as stated, fails: two runs on the same snapshot with the same
    thresholds, one at 00:00:10 and one at 00:00:20, list alerts that differ
    in the field [timestamp]; and a run is not free of effects, it replaces
    the global list. *)
Lemma same_input_different_alerts :
  let run1 := check_alerts_locked (at_instant "2024-01-01T00:00:10")
                                  (PDict scenario_hosts) stale_world in
  let run2 := check_alerts_locked (at_instant "2024-01-01T00:00:20")
                                  (PDict scenario_hosts) stale_world in
  snd run1 = Ok tt /\ snd run2 = Ok tt /\
  map timestamp (active_alerts (fst run1))
  = ["2024-01-01T00:00:10"; "2024-01-01T00:00:10"] /\
  map timestamp (active_alerts (fst run2))
  = ["2024-01-01T00:00:20"; "2024-01-01T00:00:20"] /\
  active_alerts (fst run1) <> active_alerts (fst run2) /\
  active_alerts (fst run1) <> active_alerts stale_world.
Proof. vm_compute. repeat split; try reflexivity; discriminate. Qed.

(** C4 (amended): while no POST is served, two runs of the block under the
    lock on the same value with the same thresholds end alike (both complete
    or both raise the same exception) and list alerts that agree in
    [hostname], [type], [value] and [threshold], in the same order, whatever
    the list held before and whatever the clocks read; the alerts are equal
    in every field when the clocks read the same. *)
Theorem runs_agree_up_to_timestamps (E1 E2 : env) (w1 w2 : world) (v : pyval) :
  quiet E1 -> quiet E2 ->
  ALERT_THRESHOLDS w1 = ALERT_THRESHOLDS w2 ->
  let run1 := check_alerts_locked E1 v w1 in
  let run2 := check_alerts_locked E2 v w2 in
  snd run1 = snd run2 /\
  map untimed (active_alerts (fst run1)) = map untimed (active_alerts (fst run2)) /\
  ((forall i, now E1 (clock_reads w1 + i)%nat = now E2 (clock_reads w2 + i)%nat) ->
   active_alerts (fst run1) = active_alerts (fst run2)).
Proof.
  intros H1 H2 HT run1 run2.
  assert ((exists d, v = PDict d) \/ (forall d, v <> PDict d)) as [[d ->] | Hv]
    by (destruct v; eauto; right; discriminate).
  - subst run1 run2.
    rewrite !run_result, !run_alerts, !untimed_stamped, HT by assumption.
    repeat split. intros Hc. now apply stamped_ext.
  - subst run1 run2. rewrite !check_alerts_locked_not_dict by assumption.
    simpl. auto.
Qed.

Lemma runs_agree_up_to_timestamps_witness :
  let E := at_instant "2024-01-01T00:00:10" in
  quiet E /\
  ALERT_THRESHOLDS initial_world = ALERT_THRESHOLDS stale_world /\
  active_alerts (fst (check_alerts_locked E (PDict scenario_hosts) initial_world))
  = active_alerts (fst (check_alerts_locked E (PDict scenario_hosts) stale_world)).
Proof.
  intros E.
  assert (quiet E) as Hq by (intros n; reflexivity).
  split; [exact Hq|]. split; [reflexivity|].
  exact (proj2 (proj2 (runs_agree_up_to_timestamps E E initial_world stale_world
                         (PDict scenario_hosts) Hq Hq eq_refl))
               (fun i => eq_refl)).
Defined.

(** ** GET /api/latest *)

Lemma api_latest_relays E w :
  api_latest E w
  = (with_sent (sent w ++ [latest_url]) w, relayed (net E (List.length (sent w)))).
Proof.
  unfold api_latest, bind, requests_get, response_json, relayed, raise, ret.
  fold latest_url.
  destruct (net E (List.length (sent w))) as [msg|r]; [reflexivity|].
  destruct (json r); reflexivity.
Qed.

(** C3, as stated, fails: after a turn of the loop has fetched the scenario
    snapshot, GET /api/latest sends a second request to the server and
    answers with what that request returns, not with what the loop fetched. *)
Lemma api_latest_fetches_again :
  let w1 := check_alerts_iter moving initial_world in
  let call := api_latest moving w1 in
  net moving (List.length (sent initial_world))
  = Answered (mkResponse 200 (inr (PDict scenario_hosts))) /\
  sent w1 = [latest_url] /\
  sent (fst call) = [latest_url; latest_url] /\
  body (snd call) = PDict two_hosts /\
  body (snd call) <> PDict scenario_hosts.
Proof. vm_compute. repeat split; try reflexivity; discriminate. Qed.

(** C3 (amended): every call of GET /api/latest sends one request of its own
    to the server's /latest and answers with what that request brings: the
    decoded body with status 200 (whatever the server's status), or
    [{"error": message}] with status 500 when the request raises or the body
    is not JSON.  It stores nothing, and after [n] turns of the loop its
    answer is the server's answer to the request after the loop's [n]. *)
Theorem api_latest_fetches_each_call (E : env) (w : world) (n : nat) :
  let w' := check_alerts E n w in
  sent (fst (api_latest E w')) = sent w' ++ [latest_url] /\
  fst (api_latest E w') = with_sent (sent w' ++ [latest_url]) w' /\
  snd (api_latest E w') = relayed (net E (List.length (sent w) + n)%nat).
Proof.
  intros w'. rewrite api_latest_relays. simpl.
  subst w'. now rewrite check_alerts_sent.
Qed.

(** ** POST /api/alerts/config *)

(** C6: a POST whose body is the object [partial] leaves in ALERT_THRESHOLDS,
    for every key, the value [partial] gives it, and the value it had when
    [partial] does not name it; nothing else of the process changes, and a
    GET that follows answers with the merged thresholds. *)
Theorem config_update_merges (w : world) (partial : dict) (k : string) :
  Dict.wf partial ->
  let w' := fst (api_alerts_config POST partial w) in
  Dict.get (ALERT_THRESHOLDS w') k
  = match Dict.get partial k with
    | Some v => Some v
    | None => Dict.get (ALERT_THRESHOLDS w) k
    end /\
  w' = with_thresholds (ALERT_THRESHOLDS w') w /\
  api_alerts_config GET [] w' = (w', jsonify (PDict (ALERT_THRESHOLDS w'))).
Proof.
  intros Hwf w'. subst w'. simpl. repeat split.
  now apply DictFacts.get_update_wf.
Qed.

Lemma config_update_merges_witness :
  let w' := fst (api_alerts_config POST [("cpu", PInt 90)] initial_world) in
  Dict.wf [("cpu", PInt 90)] /\
  Dict.get (ALERT_THRESHOLDS w') "cpu" = Some (PInt 90) /\
  Dict.get (ALERT_THRESHOLDS w') "memory" = Some (PFloat (float64 85 0)) /\
  Dict.get (ALERT_THRESHOLDS w') "disk" = Some (PFloat (float64 90 0)) /\
  body (snd (api_alerts_config GET [] w'))
  = PDict [("cpu", PInt 90); ("memory", PFloat (float64 85 0));
           ("disk", PFloat (float64 90 0))].
Proof.
  intros w'.
  assert (Dict.wf [("cpu", PInt 90)]) as Hwf by (repeat constructor; simpl; tauto).
  split; [exact Hwf|].
  split; [exact (proj1 (config_update_merges initial_world _ "cpu" Hwf))|].
  split; [exact (proj1 (config_update_merges initial_world _ "memory" Hwf))|].
  split; [exact (proj1 (config_update_merges initial_world _ "disk" Hwf))|].
  reflexivity.
Defined.

(** C7, as stated, fails: the body of the answer to a POST is not the
    threshold set; it is an object with the keys [status] and [thresholds]. *)
Lemma config_post_body_is_wrapped :
  let call := api_alerts_config POST [("cpu", PInt 90)] initial_world in
  body (snd call)
  = PDict [("status", PStr "ok");
           ("thresholds", PDict [("cpu", PInt 90);
                                 ("memory", PFloat (float64 85 0));
                                 ("disk", PFloat (float64 90 0))])] /\
  body (snd call) <> PDict (ALERT_THRESHOLDS (fst call)).
Proof. vm_compute. split; [reflexivity | discriminate]. Qed.

(** C7 (amended): the answer to a POST whose body is the object [partial]
    has status 200 and the body [{"status": "ok", "thresholds": T'}], where
    [T'] is the whole of ALERT_THRESHOLDS after the merge: the thresholds a
    GET then answers with, every key it had before still in it. *)
Theorem config_post_response (w : world) (partial : dict) :
  let call := api_alerts_config POST partial w in
  let T' := ALERT_THRESHOLDS (fst call) in
  snd call = mkHttp 200 (PDict [("status", PStr "ok"); ("thresholds", PDict T')]) /\
  T' = Dict.update (ALERT_THRESHOLDS w) partial /\
  snd (api_alerts_config GET [] (fst call)) = mkHttp 200 (PDict T') /\
  (forall k, Dict.get (ALERT_THRESHOLDS w) k <> None -> Dict.get T' k <> None).
Proof.
  intros call T'. subst T' call. simpl. repeat split.
  intros k Hk. rewrite DictFacts.get_update.
  destruct (Dict.get (rev partial) k); [discriminate | exact Hk].
Qed.

(** C8, as stated, fails: a POST that gives [cpu] the string "high" is
    answered with status 200 and the string becomes the threshold; the next
    turn of the loop then raises [TypeError] at the first comparison and
    leaves the list of alerts empty. *)
Lemma string_threshold_is_accepted :
  let call := api_alerts_config POST [("cpu", PStr "high")] stale_world in
  let w' := check_alerts_iter (answering (PDict scenario_hosts)) (fst call) in
  status (snd call) = 200 /\
  Dict.get (ALERT_THRESHOLDS (fst call)) "cpu" = Some (PStr "high") /\
  as_number (PStr "high") = None /\
  stdout w' = [TypeError] /\
  active_alerts w' = [].
Proof. vm_compute. repeat split; reflexivity. Qed.

(** C8 (amended): a POST whose body is an object is never refused: whatever
    the value [v] the body gives a key, a number or not, the answer has
    status 200 and says "ok", and [v] is the threshold of that key
    afterwards. *)
Theorem config_update_unvalidated (w : world) (partial : dict) (k : string)
  (v : pyval) :
  Dict.wf partial -> Dict.get partial k = Some v ->
  let call := api_alerts_config POST partial w in
  status (snd call) = 200 /\
  (exists T', body (snd call)
              = PDict [("status", PStr "ok"); ("thresholds", T')]) /\
  Dict.get (ALERT_THRESHOLDS (fst call)) k = Some v.
Proof.
  intros Hwf Hk call. subst call. simpl. repeat split; [eauto|].
  now rewrite DictFacts.get_update_wf, Hk.
Qed.

Lemma config_update_unvalidated_witness :
  Dict.wf [("cpu", PStr "high")] /\
  Dict.get (ALERT_THRESHOLDS
              (fst (api_alerts_config POST [("cpu", PStr "high")] initial_world)))
           "cpu"
  = Some (PStr "high").
Proof.
  assert (Dict.wf [("cpu", PStr "high")]) as Hwf
    by (repeat constructor; simpl; tauto).
  split; [exact Hwf|].
  exact (proj2 (proj2 (config_update_unvalidated initial_world _ "cpu"
                         (PStr "high") Hwf eq_refl))).
Defined.

(** ** The thresholds a cycle reads *)

(** C9, as stated, fails: the loop subscripts the global dict each time it
    needs a threshold, and the POST handler merges into that dict without
    taking the lock.  A POST served between the comparison and the
    construction of the alert gives an alert whose value does not exceed its
    threshold; a POST served between two hosts makes one cycle judge two
    equal readings against two thresholds. *)
Lemma concurrent_post_tears_cycle :
  let w1 := check_alerts_iter (racing [warm "host1"] 1) initial_world in
  let w2 := check_alerts_iter (racing [warm "host1"; warm "host2"] 4) initial_world in
  observed w1
  = [("cpu", Some (PFloat (float64 80 0))); ("cpu", Some (PInt 90));
     ("memory", Some (PFloat (float64 85 0)));
     ("disk", Some (PFloat (float64 90 0)))] /\
  active_alerts w1
  = [mkAlert "host1" "CPU" (PInt 85) (PInt 90) "2024-01-01T00:00:10"] /\
  py_gt (PInt 85) (PInt 90) = Some false /\
  stdout w2 = [] /\
  map untimed (active_alerts w2)
  = [("host1", "CPU", PInt 85, PFloat (float64 80 0))] /\
  map fst (observed w2)
  = ["cpu"; "cpu"; "memory"; "disk"; "cpu"; "memory"; "disk"] /\
  nth 0 (map snd (observed w2)) None = Some (PFloat (float64 80 0)) /\
  nth 4 (map snd (observed w2)) None = Some (PInt 90).
Proof. vm_compute. repeat split; reflexivity. Qed.

(** C9 (amended): in a turn of the loop during which no POST is served,
    every subscript of ALERT_THRESHOLDS reads the entry of the one dict the
    turn started with, and the turn leaves that dict as it was. *)
Theorem quiet_cycle_reads_one_version (E : env) (w : world) :
  quiet E ->
  let w' := check_alerts_iter E w in
  ALERT_THRESHOLDS w' = ALERT_THRESHOLDS w /\
  exists reads,
    observed w' = observed w ++ reads /\
    read_from (ALERT_THRESHOLDS w) reads.
Proof.
  intros Hquiet w'. subst w'. unfold check_alerts_iter.
  rewrite check_alerts_try_cases.
  assert (forall w0 : world, ALERT_THRESHOLDS w0 = ALERT_THRESHOLDS w ->
            observed w0 = observed w ->
            ALERT_THRESHOLDS w0 = ALERT_THRESHOLDS w /\
            exists reads, observed w0 = observed w ++ reads /\
                          read_from (ALERT_THRESHOLDS w) reads) as Hsame.
  { intros w0 HT Ho. split; [exact HT|]. exists []. rewrite app_nil_r.
    split; [exact Ho | constructor]. }
  destruct (net E (List.length (sent w))) as [msg|r]; [now apply Hsame|].
  destruct (status_code r =? 200); [|now apply Hsame].
  destruct (json r) as [msg|v]; [now apply Hsame|].
  set (w0 := with_sent _ w).
  assert ((exists d, v = PDict d) \/ (forall d, v <> PDict d)) as [[d ->] | Hv]
    by (destruct v; eauto; right; discriminate).
  - pose proof (check_alerts_locked_quiet E Hquiet d w0) as H.
    destruct (check_alerts_locked E (PDict d) w0) as [w1 r1].
    destruct H as (reads & Hreads & _ & Hext).
    assert (ALERT_THRESHOLDS w1 = ALERT_THRESHOLDS w) as HT
      by (now rewrite (ext_thresholds _ _ _ _ Hext)).
    assert (observed w1 = observed w ++ reads) as Ho
      by (now rewrite (ext_observed _ _ _ _ Hext)).
    destruct r1 as [[]|e]; simpl; (split; [exact HT|]);
      exists reads; (split; [exact Ho | exact Hreads]).
  - rewrite check_alerts_locked_not_dict by assumption. now apply Hsame.
Qed.

Lemma quiet_cycle_reads_one_version_witness :
  let E := answering (PDict scenario_hosts) in
  quiet E /\
  ALERT_THRESHOLDS (check_alerts_iter E initial_world)
  = ALERT_THRESHOLDS initial_world.
Proof.
  intros E. split; [apply quiet_answering|].
  exact (proj1 (quiet_cycle_reads_one_version E initial_world (quiet_answering _))).
Defined.

(** * Further properties *)

(** ** GET /api/query *)

Lemma append_assoc (a b c : string) :
  String.append (String.append a b) c = String.append a (String.append b c).
Proof. induction a as [|ch a IH]; simpl; [reflexivity | now rewrite IH]. Qed.



(** X2: the handler pastes the values of the query string into the URL as
    they are: a value of [hours] that ends in [&hostname=h] gives the very
    request that [hours] and [hostname=h] give. *)
Theorem api_query_pastes_values (hours host : string) (E : env) (w : world) :
  host <> "" ->
  api_query [("hours", String.append hours (String.append "&hostname=" host))] E w
  = api_query [("hours", hours); ("hostname", host)] E w.
Proof.
  intros Hhost.
  assert (query_url [("hours", String.append hours (String.append "&hostname=" host))]
          = query_url [("hours", hours); ("hostname", host)]) as Hurl.
  { unfold query_url. cbv zeta.
    change (args_get [("hours", String.append hours (String.append "&hostname=" host))]
                     "hostname" "") with "".
    change (args_get [("hours", String.append hours (String.append "&hostname=" host))]
                     "hours" "24")
      with (String.append hours (String.append "&hostname=" host)).
    change (args_get [("hours", hours); ("hostname", host)] "hostname" "") with host.
    change (args_get [("hours", hours); ("hostname", host)] "hours" "24") with hours.
    apply String.eqb_neq in Hhost. rewrite Hhost, String.eqb_refl.
    rewrite (append_assoc GO_SERVER_URL).
    now rewrite (append_assoc "/query?hours="). }
  unfold api_query. now rewrite Hurl.
Qed.

Lemma api_query_pastes_values_witness :
  "web1" <> "" /\
  sent (fst (api_query [("hours", "1&hostname=web1")] (answering PNone) initial_world))
  = ["http://localhost:8080/query?hours=1&hostname=web1"].
Proof.
  assert ("web1" <> "") as Hhost by discriminate.
  split; [exact Hhost|].
  exact (eq_trans
           (f_equal (fun call => sent (fst call))
                    (api_query_pastes_values "1" "web1" (answering PNone)
                                             initial_world Hhost))
           eq_refl).
Defined.

(** ** An empty snapshot *)

(** X3: a turn of the loop whose request is answered 200 with the empty
    object empties [active_alerts], whatever it held, prints nothing and
    leaves the thresholds alone; GET /api/alerts then answers []. *)
Theorem empty_snapshot_clears_alerts (E : env) (w : world) (r : response) :
  net E (List.length (sent w)) = Answered r ->
  status_code r = 200 ->
  json r = inr (PDict []) ->
  let w' := check_alerts_iter E w in
  active_alerts w' = [] /\
  stdout w' = stdout w /\
  ALERT_THRESHOLDS w' = ALERT_THRESHOLDS w /\
  snd (api_alerts w') = jsonify (PList []).
Proof.
  intros Hnet Hstatus Hjson w'. subst w'.
  unfold api_alerts, check_alerts_iter. rewrite check_alerts_try_cases.
  rewrite Hnet, Hstatus, Hjson. simpl. repeat split.
Qed.

Lemma empty_snapshot_clears_alerts_witness :
  active_alerts stale_world = [stale] /\
  active_alerts (check_alerts_iter (answering (PDict [])) stale_world) = [].
Proof.
  split; [reflexivity|].
  exact (proj1 (empty_snapshot_clears_alerts (answering (PDict [])) stale_world
                  (mkResponse 200 (inr (PDict []))) eq_refl eq_refl eq_refl)).
Defined.

(** ** Runs that raise *)

Lemma sweep_In_found T sl h k v t :
  In (h, k, v, t) (fst (sweep T sl)) ->
  exists m, In (h, m, k) sl /\ verdict T m k = Ok (Some (v, t)).
Proof.
  induction sl as [|[[h0 m0] k0] rest IH]; simpl; [tauto|].
  destruct (verdict T m0 k0) as [[[v0 t0]|]|e] eqn:Hv; simpl.
  - destruct (sweep T rest) as [found r]. simpl in *.
    intros [Heq | Hin].
    + injection Heq as <- <- <- <-. exists m0. auto.
    + destruct (IH Hin) as (m & Hm & Hvm). exists m. auto.
  - intros Hin. destruct (IH Hin) as (m & Hm & Hvm). exists m. auto.
  - tauto.
Qed.

Lemma stamped_In clock n l a :
  In a (stamped clock n l) ->
  exists k, type a = type_label k /\ In (hostname a, k, value a, threshold a) l.
Proof.
  revert n. induction l as [|[[[h k] v] t] rest IH]; intros n; simpl; [tauto|].
  intros [<- | Hin].
  - exists k. simpl. auto.
  - destruct (IH _ Hin) as (k' & Hk & Hin'). exists k'. auto.
Qed.

(** X4: while no POST is served, every alert the block under the lock has
    listed is a violation, also when the run raises before its end: its
    value is the reading of its host for its kind, its threshold is the
    configured one, and the value is greater. *)
Theorem listed_alerts_are_violations (E : env) (w : world) (hosts : dict)
  (a : alert) :
  quiet E -> Dict.wf hosts ->
  In a (active_alerts (fst (check_alerts_locked E (PDict hosts) w))) ->
  exists k d,
    type a = type_label k /\
    Dict.get hosts (hostname a) = Some (PDict d) /\
    Dict.get d (usage_field k) = Some (value a) /\
    Dict.get (ALERT_THRESHOLDS w) (threshold_key k) = Some (threshold a) /\
    py_gt (value a) (threshold a) = Some true.
Proof.
  intros Hquiet Hwf Hin. rewrite run_alerts in Hin by assumption.
  apply stamped_In in Hin as (k & Hk & Hin).
  apply sweep_In_found in Hin as (m & Hm & Hv).
  apply In_slots in Hm. apply verdict_Some in Hv as (d & -> & Hv).
  exists k, d. split; [exact Hk|]. split; [|exact Hv].
  now apply DictFacts.In_get.
Qed.

Lemma listed_alerts_are_violations_witness :
  let E := answering truncated_metrics in
  let a := mkAlert "host1" "CPU" (PInt 95) (PFloat (float64 80 0))
                   "2024-01-01T00:00:10" in
  quiet E /\
  snd (check_alerts_locked E truncated_metrics stale_world)
  = Raise (KeyError "memory_usage") /\
  exists k d,
    type a = type_label k /\
    Dict.get [("host1", PDict [("cpu_usage", PInt 95)])] (hostname a)
    = Some (PDict d) /\
    Dict.get d (usage_field k) = Some (value a) /\
    Dict.get (ALERT_THRESHOLDS stale_world) (threshold_key k) = Some (threshold a) /\
    py_gt (value a) (threshold a) = Some true.
Proof.
  intros E a.
  assert (quiet E) as Hq by (intros n; reflexivity).
  split; [exact Hq|]. split; [reflexivity|].
  apply (listed_alerts_are_violations E stale_world
           [("host1", PDict [("cpu_usage", PInt 95)])] a Hq).
  - repeat constructor. simpl. tauto.
  - left. reflexivity.
Defined.

Lemma sweep_until_raise T (pre : list slot) h m k (post : list slot) e :
  (forall s, In s pre -> exists o, verdict T (snd (fst s)) (snd s) = Ok o) ->
  verdict T m k = Raise e ->
  sweep T (pre ++ (h, m, k) :: post) = (fst (sweep T pre), Raise e) /\
  snd (sweep T pre) = Ok tt.
Proof.
  intros Hpre Hraise.
  induction pre as [|[[h0 m0] k0] rest IH]; simpl.
  - now rewrite Hraise.
  - destruct (Hpre (h0, m0, k0) (or_introl eq_refl)) as (o & Ho).
    simpl in Ho. rewrite Ho.
    destruct IH as [IH1 IH2]; [intros s Hs; apply Hpre; now right|].
    rewrite IH1. destruct o as [[v t]|]; [|auto].
    destruct (sweep T rest) as [found r]. simpl in *. auto.
Qed.

(** X5: while no POST is served, the first block that raises ends the run
    with its exception: the alerts listed are those of the blocks before
    it, and no block after it, of this host or of a later one, is
    evaluated. *)
Theorem first_raise_ends_run (E : env) (w : world) (hosts : dict)
  (pre post : list slot) (h : string) (m : pyval) (k : kind) (e : exn) :
  quiet E ->
  slots hosts = pre ++ (h, m, k) :: post ->
  (forall s, In s pre ->
     exists o, verdict (ALERT_THRESHOLDS w) (snd (fst s)) (snd s) = Ok o) ->
  verdict (ALERT_THRESHOLDS w) m k = Raise e ->
  let run := check_alerts_locked E (PDict hosts) w in
  snd run = Raise e /\
  map alert_key (active_alerts (fst run))
  = map slot_key (filter (exceeds (ALERT_THRESHOLDS w)) pre).
Proof.
  intros Hquiet Hslots Hpre Hraise run. subst run.
  rewrite run_result, run_alerts by assumption.
  rewrite Hslots.
  destruct (sweep_until_raise _ pre h m k post e Hpre Hraise) as [Hsw Hok].
  rewrite Hsw. simpl. split; [reflexivity|].
  now rewrite alert_key_stamped, sweep_ok_keys.
Qed.

Lemma first_raise_ends_run_witness :
  let E := answering (PDict broken_then_web1) in
  let run := check_alerts_locked E (PDict broken_then_web1) initial_world in
  quiet E /\
  snd run = Raise (KeyError "disk_usage") /\
  map alert_key (active_alerts (fst run)) = [("host1", "CPU"); ("host1", "Memory")].
Proof.
  intros E run.
  assert (quiet E) as Hq by (intros n; reflexivity).
  split; [exact Hq|].
  refine (first_raise_ends_run E initial_world broken_then_web1
            (firstn 2 (slots broken_then_web1)) (skipn 3 (slots broken_then_web1))
            "host1" (PDict [("cpu_usage", PInt 95); ("memory_usage", PInt 95)])
            disk (KeyError "disk_usage") Hq eq_refl _ eq_refl).
  intros s [<- | [<- | []]]; eexists; reflexivity.
Defined.

(** ** The timestamps of a cycle *)

Lemma stamped_count clock n l : List.length (stamped clock n l) = List.length l.
Proof.
  revert n. induction l as [|[[[h k] v] t] rest IH]; intros n; simpl;
    [reflexivity | now rewrite IH].
Qed.

Lemma stamped_timestamps clock n l :
  map timestamp (stamped clock n l) = map clock (seq n (List.length l)).
Proof.
  revert n. induction l as [|[[[h k] v] t] rest IH]; intros n; simpl;
    [reflexivity | now rewrite IH].
Qed.

(** X6: while no POST is served, the block under the lock reads the clock
    once for every alert it appends and never otherwise: the alerts carry,
    in order, the readings the clock gave from the start of the run. *)
Theorem alerts_carry_successive_readings (E : env) (w : world) (hosts : dict) :
  quiet E ->
  let run := check_alerts_locked E (PDict hosts) w in
  let n := List.length (active_alerts (fst run)) in
  map timestamp (active_alerts (fst run)) = map (now E) (seq (clock_reads w) n) /\
  clock_reads (fst run) = (clock_reads w + n)%nat.
Proof.
  intros Hquiet run n. subst n.
  pose proof (check_alerts_locked_quiet E Hquiet hosts w) as H.
  fold run in H. destruct run as [w' r]. simpl.
  destruct H as (reads & _ & _ & Hext).
  rewrite (ext_clock _ _ _ _ Hext), (ext_alerts _ _ _ _ Hext). simpl.
  now rewrite stamped_timestamps, stamped_count.
Qed.

Lemma alerts_carry_successive_readings_witness :
  let E := ticking (PDict two_hosts) in
  quiet E /\
  map timestamp (active_alerts (fst (check_alerts_locked E (PDict two_hosts)
                                                          initial_world)))
  = ["t0"; "t1"; "t2"; "t3"].
Proof.
  intros E.
  assert (quiet E) as Hq by (intros n; reflexivity).
  split; [exact Hq|].
  exact (proj1 (alerts_carry_successive_readings E initial_world two_hosts Hq)).
Defined.

(** ** An outage *)

Lemma failed_fetch_iter E w :
  fetch_fails (net E (List.length (sent w))) ->
  active_alerts (check_alerts_iter E w) = active_alerts w /\
  ALERT_THRESHOLDS (check_alerts_iter E w) = ALERT_THRESHOLDS w.
Proof.
  intros Hfail. unfold check_alerts_iter. rewrite check_alerts_try_cases.
  destruct (net E (List.length (sent w))) as [msg|r]; [split; reflexivity|].
  simpl in Hfail.
  destruct (status_code r =? 200) eqn:Hs; [|split; reflexivity].
  apply Z.eqb_eq in Hs.
  destruct Hfail as [Hne | (msg & Hj)]; [contradiction|].
  rewrite Hj. split; reflexivity.
Qed.

(** X7: while the fetch fails turn after turn, the alerts and the
    thresholds stay what they were, however long the outage: after [n]
    such turns, each of which has sent its one request, [active_alerts] is
    the list of before the first. *)
Theorem outage_keeps_alerts (E : env) (n : nat) (w : world) :
  (forall i, (List.length (sent w) <= i < List.length (sent w) + n)%nat ->
             fetch_fails (net E i)) ->
  active_alerts (check_alerts E n w) = active_alerts w /\
  ALERT_THRESHOLDS (check_alerts E n w) = ALERT_THRESHOLDS w /\
  List.length (sent (check_alerts E n w)) = (List.length (sent w) + n)%nat.
Proof.
  revert w. induction n as [|n IH]; intros w Hfail; simpl.
  - repeat split. lia.
  - destruct (failed_fetch_iter E w) as [Ha HT]; [apply Hfail; lia|].
    destruct (IH (check_alerts_iter E w)) as (Ha' & HT' & Hs').
    + intros i Hi. apply Hfail.
      rewrite check_alerts_iter_sent, length_app in Hi. simpl in Hi. lia.
    + rewrite Ha', HT', Hs', Ha, HT, check_alerts_iter_sent, length_app.
      simpl. repeat split. lia.
Qed.

Lemma outage_keeps_alerts_witness :
  let E := mkEnv (fun _ => Refused "Connection refused") (fun _ => "")
                 (fun _ => []) in
  active_alerts (check_alerts E 5 stale_world) = [stale].
Proof.
  intros E.
  exact (proj1 (outage_keeps_alerts E 5 stale_world (fun i _ => I))).
Defined.

(** ** The three thresholds stay defined *)

Lemma update_keeps_keys (T partial : dict) (key : string) :
  Dict.get T key <> None -> Dict.get (Dict.update T partial) key <> None.
Proof.
  intros Hkey. rewrite DictFacts.get_update.
  destruct (Dict.get (rev partial) key); [discriminate | exact Hkey].
Qed.

Lemma serve_posts_has_thresholds posts w :
  has_thresholds (ALERT_THRESHOLDS w) ->
  has_thresholds (ALERT_THRESHOLDS (serve_posts posts w)).
Proof.
  unfold serve_posts. revert w.
  induction posts as [|p rest IH]; intros w Hw; simpl; [exact Hw|].
  apply IH. simpl. intros k. apply update_keeps_keys, Hw.
Qed.

Lemma usage_is_no_threshold k : not_for_threshold (KeyError (usage_field k)).
Proof. intros k'. destruct k, k'; discriminate. Qed.

Section Settled.

Variable E : env.

Lemma read_threshold_settled k w :
  settled w ->
  settled (fst (read_threshold E (threshold_key k) w)) /\
  exists t, snd (read_threshold E (threshold_key k) w) = Ok t.
Proof.
  intros [HT Hreads]. unfold read_threshold.
  set (posts := foreign E (List.length (observed w))).
  pose proof (serve_posts_has_thresholds posts w HT) as HT1.
  assert (observed (serve_posts posts w) = observed w) as Hobs
    by (rewrite serve_posts_only_thresholds; reflexivity).
  pose proof (HT1 k) as Hk.
  destruct (Dict.get (ALERT_THRESHOLDS (serve_posts posts w)) (threshold_key k))
    as [t|] eqn:Hget; [|contradiction].
  simpl. split; [|eauto].
  constructor; simpl; [exact HT1|].
  rewrite Hobs. apply Forall_app. split; [exact Hreads|].
  repeat constructor. simpl. discriminate.
Qed.

Lemma check_metric_settled h m k w :
  settled w ->
  settled (fst (check_metric E h m k w)) /\
  forall e, snd (check_metric E h m k w) = Raise e -> not_for_threshold e.
Proof.
  intros Hw.
  assert (not_for_threshold TypeError) as Htype by (intros k'; discriminate).
  unfold check_metric, bind, getitem, greater, raise, ret.
  destruct m; try (split; [exact Hw | intros e [= <-]; exact Htype]).
  destruct (Dict.get d (usage_field k)) as [v|];
    [|split; [exact Hw | intros e [= <-]; apply usage_is_no_threshold]].
  destruct (read_threshold_settled k w Hw) as [H1 (t & Hr1)].
  destruct (read_threshold E (threshold_key k) w) as [w1 r1].
  simpl in H1, Hr1. subst r1.
  destruct (py_gt v t) as [[|]|];
    try (split; [exact H1 | intros e [= <-]; exact Htype]);
    try (split; [exact H1 | discriminate]).
  destruct (read_threshold_settled k w1 H1) as [H2 (t2 & Hr2)].
  destruct (read_threshold E (threshold_key k) w1) as [w2 r2].
  simpl in H2, Hr2. subst r2. simpl.
  split; [|discriminate]. destruct H2. now constructor.
Qed.

Lemma for_each_settled sl w :
  settled w ->
  settled (fst (for_each sl (check_slot E) w)) /\
  forall e, snd (for_each sl (check_slot E) w) = Raise e -> not_for_threshold e.
Proof.
  revert w. induction sl as [|[[h m] k] rest IH]; intros w Hw.
  - simpl. split; [exact Hw | discriminate].
  - simpl for_each. unfold bind. simpl check_slot.
    destruct (check_metric_settled h m k w Hw) as [H1 He1].
    destruct (check_metric E h m k w) as [w1 [[]|e1]]; simpl in H1, He1.
    + apply IH, H1.
    + simpl. split; [exact H1 | intros e [= <-]; now apply He1].
Qed.

Lemma check_alerts_iter_settled w :
  settled w ->
  settled (check_alerts_iter E w) /\
  exists printed,
    stdout (check_alerts_iter E w) = stdout w ++ printed /\
    Forall not_for_threshold printed.
Proof.
  intros Hw.
  assert (forall w0 : world,
            ALERT_THRESHOLDS w0 = ALERT_THRESHOLDS w -> observed w0 = observed w ->
            settled w0) as Hsame.
  { intros w0 HT Ho. destruct Hw as [H1 H2]. constructor; congruence. }
  unfold check_alerts_iter. rewrite check_alerts_try_cases.
  set (w0 := with_sent _ w).
  assert (settled w0) as Hw0 by (now apply Hsame).
  destruct (net E (List.length (sent w))) as [msg|r].
  { split; [now apply Hsame|]. exists [RequestException msg].
    split; [reflexivity|]. repeat constructor. intros k; discriminate. }
  destruct (status_code r =? 200).
  2:{ split; [now apply Hsame|]. exists []. simpl. rewrite app_nil_r. auto. }
  destruct (json r) as [msg|v].
  { split; [now apply Hsame|]. exists [JSONDecodeError msg].
    split; [reflexivity|]. repeat constructor. intros k; discriminate. }
  assert ((exists d, v = PDict d) \/ (forall d, v <> PDict d)) as [[d ->] | Hv]
    by (destruct v; eauto; right; discriminate).
  - pose proof (check_alerts_locked_aside E (PDict d) w0) as [_ Hout _].
    unfold check_alerts_locked, bind, clear, items, ret in *.
    rewrite for_each_hosts in *.
    assert (settled (with_alerts [] w0)) as Hw1
      by (destruct Hw0; now constructor).
    destruct (for_each_settled (slots d) _ Hw1) as [H1 He].
    destruct (for_each (slots d) (check_slot E) (with_alerts [] w0))
      as [w1 [[]|e]]; simpl in *.
    + split; [destruct H1; now constructor|].
      exists []. rewrite app_nil_r. auto.
    + split; [destruct H1; now constructor|].
      exists [e]. rewrite Hout. split; [reflexivity|].
      repeat constructor. now apply He.
  - rewrite check_alerts_locked_not_dict by assumption.
    split; [now apply Hsame|]. exists [AttributeError].
    split; [reflexivity|]. repeat constructor. intros k; discriminate.
Qed.

End Settled.

(** X8: whatever POSTs are served and whatever the server answers, the
    three thresholds stay defined: once ALERT_THRESHOLDS has "cpu",
    "memory" and "disk", it has them after any number of turns of the loop
    and of POSTs, every subscript of the loop finds its key, and no turn
    prints a [KeyError] for a threshold. *)
Theorem thresholds_stay_defined (E : env) (n : nat) (w : world) :
  settled w ->
  settled (check_alerts E n w) /\
  (forall partial,
     has_thresholds
       (ALERT_THRESHOLDS (fst (api_alerts_config POST partial (check_alerts E n w))))) /\
  exists printed,
    stdout (check_alerts E n w) = stdout w ++ printed /\
    Forall not_for_threshold printed.
Proof.
  intros Hw.
  assert (settled (check_alerts E n w) /\
          exists printed, stdout (check_alerts E n w) = stdout w ++ printed /\
                          Forall not_for_threshold printed) as [Hs Hp].
  { revert w Hw. induction n as [|n IH]; intros w Hw; simpl.
    - split; [exact Hw|]. exists []. rewrite app_nil_r. auto.
    - destruct (check_alerts_iter_settled E w Hw) as [H1 (p1 & Hp1 & Hf1)].
      destruct (IH _ H1) as [H2 (p2 & Hp2 & Hf2)].
      split; [exact H2|]. exists (p1 ++ p2).
      rewrite Hp2, Hp1, app_assoc. split; [reflexivity|].
      now apply Forall_app. }
  split; [exact Hs|]. split; [|exact Hp].
  intros partial k. simpl. apply update_keeps_keys, (settled_thresholds _ Hs).
Qed.

Lemma thresholds_stay_defined_witness :
  let E := racing [warm "host1"; warm "host2"] 4 in
  settled initial_world /\ settled (check_alerts E 3 initial_world).
Proof.
  intros E.
  assert (settled initial_world) as Hw.
  { constructor; [|constructor]. intros k. destruct k; discriminate. }
  split; [exact Hw|].
  exact (proj1 (thresholds_stay_defined E 3 initial_world Hw)).
Defined.

(** ** Repeated and accumulated POSTs *)

Lemma set_same {A : Type} (d : list (string * A)) (key : string) (v : A) :
  Dict.get d key = Some v -> Dict.set d key v = d.
Proof.
  induction d as [|[k0 v0] rest IH]; simpl; [discriminate|].
  destruct (String.eqb k0 key) eqn:Hk.
  - now intros [= ->].
  - intros Hget. now rewrite IH.
Qed.

Lemma update_same {A : Type} (d other : list (string * A)) :
  (forall k v, In (k, v) other -> Dict.get d k = Some v) ->
  Dict.update d other = d.
Proof.
  unfold Dict.update.
  induction other as [|[k v] rest IH]; intros Hall; simpl; [reflexivity|].
  rewrite set_same by (apply Hall; now left).
  apply IH. intros k' v' Hin. apply Hall. now right.
Qed.

(** X9: a POST is idempotent: sent a second time, the same object body
    changes nothing, neither the thresholds nor anything else, and is
    answered as the first was. *)
Theorem config_post_idempotent (w : world) (partial : dict) :
  Dict.wf partial ->
  let first := api_alerts_config POST partial w in
  api_alerts_config POST partial (fst first) = first.
Proof.
  intros Hwf first. subst first. unfold api_alerts_config. simpl.
  assert (Dict.update (Dict.update (ALERT_THRESHOLDS w) partial) partial
          = Dict.update (ALERT_THRESHOLDS w) partial) as Hagain.
  { apply update_same. intros k v Hin.
    rewrite DictFacts.get_update_wf by assumption.
    now rewrite (DictFacts.In_get partial k v Hwf Hin). }
  now rewrite Hagain.
Qed.

Lemma config_post_idempotent_witness :
  let body := [("cpu", PInt 90); ("swap", PInt 50)] in
  Dict.wf body /\
  ALERT_THRESHOLDS
    (fst (api_alerts_config POST body
            (fst (api_alerts_config POST body initial_world))))
  = [("cpu", PInt 90); ("memory", PFloat (float64 85 0));
     ("disk", PFloat (float64 90 0)); ("swap", PInt 50)].
Proof.
  intros body.
  assert (Dict.wf body) as Hwf.
  { repeat constructor; simpl; try tauto. intros [H | []]; discriminate. }
  split; [exact Hwf|].
  exact (eq_trans
           (f_equal (fun call => ALERT_THRESHOLDS (fst call))
                    (config_post_idempotent initial_world body Hwf))
           eq_refl).
Defined.

Lemma keys_set {A : Type} (d : list (string * A)) (key : string) (v : A) :
  Dict.keys (Dict.set d key v)
  = match Dict.get d key with
    | Some _ => Dict.keys d
    | None => Dict.keys d ++ [key]
    end.
Proof.
  induction d as [|[k0 v0] rest IH]; simpl; [reflexivity|].
  destruct (String.eqb k0 key) eqn:Hk; simpl; [reflexivity|].
  rewrite IH. destruct (Dict.get rest key); reflexivity.
Qed.

Lemma keys_update {A : Type} (other d : list (string * A)) :
  exists added,
    Dict.keys (Dict.update d other) = Dict.keys d ++ added /\
    (forall k, In k added -> In k (Dict.keys other) /\ ~ In k (Dict.keys d)) /\
    (Dict.wf d -> Dict.wf (Dict.update d other)).
Proof.
  unfold Dict.update, Dict.wf. revert d.
  induction other as [|[k v] rest IH]; intros d; simpl.
  - exists []. rewrite app_nil_r.
    split; [reflexivity|]. split; [intros k []|auto].
  - destruct (IH (Dict.set d k v)) as (added & Hkeys & Hadded & Hwf).
    rewrite keys_set in Hkeys, Hadded, Hwf.
    destruct (Dict.get d k) as [v0|] eqn:Hget.
    + exists added. split; [exact Hkeys|]. split; [|exact Hwf].
      intros k' Hin. destruct (Hadded k' Hin). auto.
    + apply DictFacts.get_None in Hget.
      exists (k :: added).
      split; [rewrite Hkeys, <- app_assoc; reflexivity|].
      split.
      * intros k' [<- | Hin]; [auto|].
        destruct (Hadded k' Hin) as [H1 H2]. split; [auto|].
        intros Hd. apply H2, in_or_app. now left.
      * intros Hnd. apply Hwf.
        apply NoDup_app; [exact Hnd | repeat constructor; simpl; tauto |].
        intros k' Hd [<- | []]. contradiction.
Qed.

Lemma In_keys_get {A : Type} (d : list (string * A)) (k : string) :
  In k (Dict.keys d) <-> Dict.get d k <> None.
Proof.
  pose proof (DictFacts.get_None d k) as H.
  destruct (Dict.get d k) as [v|].
  - split; [discriminate|]. intros _.
    destruct (in_dec String.string_dec k (Dict.keys d)) as [Hin|Hout];
      [exact Hin|]. apply H in Hout. discriminate.
  - split; [|intros Hn; now destruct Hn].
    intros Hin. exfalso. now apply (proj1 H).
Qed.

Lemma In_keys_update {A : Type} (d other : list (string * A)) (k : string) :
  In k (Dict.keys (Dict.update d other))
  <-> In k (Dict.keys d) \/ In k (Dict.keys other).
Proof.
  rewrite !In_keys_get, DictFacts.get_update.
  assert (Dict.get (rev other) k <> None <-> Dict.get other k <> None) as Hrev.
  { rewrite <- !In_keys_get. unfold Dict.keys. rewrite map_rev.
    symmetry. apply in_rev. }
  destruct (Dict.get (rev other) k) as [v|].
  - split; [intros _; right; apply Hrev; discriminate | discriminate].
  - split; [auto|]. intros [H | H]; [exact H|].
    apply Hrev in H. now destruct H.
Qed.

(** X10: a POST adds thresholds and never takes one away: the keys of
    ALERT_THRESHOLDS after it are the keys of before, in their order,
    followed by the keys of the body that were not there; no key comes
    twice. *)
Theorem config_post_only_adds_keys (w : world) (partial : dict) :
  let T := ALERT_THRESHOLDS w in
  let T' := ALERT_THRESHOLDS (fst (api_alerts_config POST partial w)) in
  (exists added,
     Dict.keys T' = Dict.keys T ++ added /\
     (forall k, In k added -> In k (Dict.keys partial) /\ ~ In k (Dict.keys T))) /\
  (forall k, In k (Dict.keys T') <-> In k (Dict.keys T) \/ In k (Dict.keys partial)) /\
  (Dict.wf T -> Dict.wf T').
Proof.
  intros T T'. subst T T'. simpl.
  destruct (keys_update partial (ALERT_THRESHOLDS w)) as (added & H1 & H2 & H3).
  split; [exists added; auto|]. split; [|exact H3].
  intros k. apply In_keys_update.
Qed.

(** ** A POST and the cycle after it *)



(** ** The auto-refresh switch of the page *)

Lemma toggle_consistent p :
  Page.consistent p ->
  Page.consistent (Page.toggleAutoRefresh p) /\
  Page.autoRefresh (Page.toggleAutoRefresh p) = negb (Page.autoRefresh p).
Proof.
  intros [Htimers Hstatus]. unfold Page.toggleAutoRefresh, Page.consistent. simpl.
  destruct (Page.autoRefresh p); simpl.
  - destruct Htimers as (h & -> & Hi). simpl. rewrite Hi. simpl.
    rewrite Nat.eqb_refl. simpl. auto.
  - rewrite Htimers. simpl. repeat split; eauto.
Qed.

(** X12: however often the Auto-Refresh button is clicked, the page runs at
    most one refresh timer: exactly the one [refreshInterval] names while
    auto-refresh is on, none while it is off; the button reads ON or OFF
    accordingly, and an even number of clicks leaves auto-refresh on. *)
Theorem auto_refresh_runs_one_timer (n : nat) :
  let p := Page.clicks n Page.loaded in
  Page.consistent p /\
  Page.autoRefresh p = Nat.even n /\
  (List.length (Page.intervals p) <= 1)%nat.
Proof.
  intros p. subst p.
  assert (forall q, Page.consistent q ->
            Page.consistent (Page.clicks n q) /\
            Page.autoRefresh (Page.clicks n q) = (if Nat.even n then Page.autoRefresh q
                                        else negb (Page.autoRefresh q))) as Hgen.
  { induction n as [|n IH]; intros q Hq.
    - simpl. auto.
    - cbn [Page.clicks].
      destruct (toggle_consistent q Hq) as [H1 E1].
      destruct (IH _ H1) as [H2 E2].
      split; [exact H2|].
      rewrite E2, E1, Nat.even_succ, <- Nat.negb_even.
      destruct (Nat.even n); simpl; [reflexivity | apply Bool.negb_involutive]. }
  assert (Page.consistent Page.loaded) as Hloaded.
  { split; [|reflexivity]. exists 1%nat. split; reflexivity. }
  destruct (Hgen Page.loaded Hloaded) as [Hc He].
  split; [exact Hc|]. split.
  - rewrite He. now destruct (Nat.even n).
  - destruct Hc as [Ht _]. destruct (Page.autoRefresh (Page.clicks n Page.loaded)).
    + destruct Ht as (h & _ & ->). simpl. lia.
    + rewrite Ht. simpl. lia.
Qed.
